(** * Delegate-CPP: a multicast delegate for C++ and its callable detector

    A shallow embedding of [IsCallable.h] and of the two [Delegate.h]
    headers of the repository, with the properties of the specification
    stated over it.

    - [IsCallable]   the type trait [is_callable<T>] (IsCallable.h)
    - [Delegate]     the class template [Delegate<_Rt(_Args...)>]
                     (src/Delegate.h, and the older header with the
                     index loops) *)

From Stdlib Require Import ZArith.
From stdpp Require Import gmap strings list.

Set Warnings "-register-all".

(* ===================================================================== *)
(** * IsCallable.h *)
(* ===================================================================== *)

Module IsCallable.

#[local] Open Scope string_scope.

(** ** The part of the C++ type system the trait looks at *)

(** The class-key of a class declaration.  [std::is_class] holds of the
    first two only. *)
Inductive class_key := key_struct | key_class | key_union.

(** A member function as name lookup sees it: its name and its type. *)
Record member_fn := MemberFn {
  fn_name   : string;
  fn_ret    : string;
  fn_params : list string
}.

(** A class declaration: class-key, name, the member functions it declares
    itself and its direct base classes. *)
Inductive class_decl :=
  ClassDecl (key : class_key) (name : string)
            (members : list member_fn) (bases : list class_decl).

Definition cls_key (c : class_decl) : class_key :=
  match c with ClassDecl k _ _ _ => k end.
Definition cls_name (c : class_decl) : string :=
  match c with ClassDecl _ n _ _ => n end.
Definition cls_members (c : class_decl) : list member_fn :=
  match c with ClassDecl _ _ ms _ => ms end.
Definition cls_bases (c : class_decl) : list class_decl :=
  match c with ClassDecl _ _ _ bs => bs end.

Inductive cpp_type :=
  | Fundamental (name : string)                       (* int, char, double *)
  | FunctionType (ret : cpp_type) (params : list cpp_type)  (* R(Args...) *)
  | PointerTo (t : cpp_type)                          (* T*, R( * )(Args...) *)
  | ClassType (c : class_decl).                       (* struct, class, union *)

(** [std::is_class_v<T>]: a class type that is not a union. *)
Definition is_class_v (T : cpp_type) : bool :=
  match T with
  | ClassType c =>
      match cls_key c with
      | key_struct | key_class => true
      | key_union => false
      end
  | _ => false
  end.

(** ** Member name lookup *)

(** The name of the function call operator. *)
Definition call_operator : string := "operator()".

(** The result of looking a member name up in a class: nothing, the
    declarations of one class, or an ambiguity between base classes. *)
Inductive lookup_result :=
  | NotFound
  | Found (declaring : string) (decls : list member_fn)
  | Ambiguous.

(** Declarations found in two different base class subobjects. *)
Definition merge (a b : lookup_result) : lookup_result :=
  match a, b with
  | NotFound, r | r, NotFound => r
  | _, _ => Ambiguous
  end.

Definition declared (f : string) (ms : list member_fn) : list member_fn :=
  filter (λ m, fn_name m = f) ms.

(** A declaration in the class itself hides the base classes; otherwise
    the lookups in the direct bases are merged. *)
Fixpoint member_lookup (f : string) (c : class_decl) : lookup_result :=
  match c with
  | ClassDecl _ name ms bases =>
      match declared f ms with
      | [] => foldr (λ b r, merge (member_lookup f b) r) NotFound bases
      | ds => Found name ds
      end
  end.

(** ** [_my_is_callable_impl<T>] *)

(** [struct Fallback { void operator()(); };] *)
Definition Fallback : class_decl :=
  ClassDecl key_struct "Fallback" [MemberFn call_operator "void" []] [].

(** [struct Derived : T, Fallback { };] *)
Definition Derived (T : class_decl) : class_decl :=
  ClassDecl key_struct "Derived" [] [T; Fallback].

(** Substitution into [Check<void (Fallback::* )(), &C::operator()>]:
    [&C::operator()] has to name exactly one member function, and its type
    has to be [void (Fallback::* )()]. *)
Definition Check_well_formed (C : class_decl) : bool :=
  match member_lookup call_operator C with
  | Found declaring [m] =>
      bool_decide (declaring = "Fallback" ∧ fn_ret m = "void" ∧ fn_params m = [])
  | _ => false
  end.

(** The two overloads of [test]. *)
Inductive test_overload :=
  | test_ellipsis     (* template<typename> static success test(...) *)
  | test_Check.       (* template<typename C> static fail test(Check<...>* ) *)

#[local] Instance test_overload_eq_dec : EqDecision test_overload.
Proof. solve_decision. Defined.

(** [sizeof] of the return types [success = char(&)[1]] and
    [fail = char(&)[2]]. *)
Definition sizeof_success : Z := 1.
Definition sizeof_fail : Z := 2.

Definition sizeof_result (o : test_overload) : Z :=
  match o with
  | test_ellipsis => sizeof_success
  | test_Check => sizeof_fail
  end.

(** The overloads of [test<C>] that survive template argument substitution
    (SFINAE drops [test_Check] when [Check<...>] is ill-formed). *)
Definition candidates (C : class_decl) : list test_overload :=
  test_ellipsis :: (if Check_well_formed C then [test_Check] else []).

(** Overload resolution for the call [test<C>(0)]: the conversion of [0] to
    a pointer is a standard conversion and beats the ellipsis. *)
Definition resolve (cands : list test_overload) : test_overload :=
  if bool_decide (test_Check ∈ cands) then test_Check else test_ellipsis.

(** [__my_is_callable_impl<T>::value] *)
Definition _my_is_callable_impl (T : class_decl) : bool :=
  bool_decide (sizeof_result (resolve (candidates (Derived T))) = sizeof_success).

(** [is_callable<T>::value], the [std::conditional] on [std::is_class_v]. *)
Definition is_callable (T : cpp_type) : bool :=
  match T with
  | ClassType c => if is_class_v T then _my_is_callable_impl c else false
  | _ => false
  end.

(** [is_callable_v<T>] *)
Definition is_callable_v (T : cpp_type) : bool := is_callable T.

(** The conversion function of a class to the function pointer type of a
    delegate, [operator c_function_type() const], as a member function.  A
    closure type without captures has one. *)
Definition conversion_to_function_pointer : string := "operator c_function_type".

(** [T] converts to that function pointer type by a conversion function,
    its own or an inherited one. *)
Definition converts_to_function_pointer (T : cpp_type) : bool :=
  match T with
  | ClassType c =>
      match member_lookup conversion_to_function_pointer c with
      | NotFound => false
      | _ => true
      end
  | _ => false
  end.

End IsCallable.

(* ===================================================================== *)
(** * Delegate.h *)
(* ===================================================================== *)

Module DelegateH.

(** [c_function_type = return_type( * )(_Args...)]: a function pointer is
    the address of a function, and the null pointer is address 0. *)
Definition c_function_type := N.
Definition nullptr : c_function_type := 0%N.

(** Objects of class [Delegate] live at addresses. *)
Definition loc := positive.

Section Delegate.

(** [_Args...] and [_Rt] of [Delegate<_Rt(_Args...)>]; [W] is the state of
    the program outside the delegates, which the registered callables read
    and write, and [E] is what they may throw.  A callable does not reach
    the delegate that is invoking it: changing a vector while it is being
    iterated is undefined in C++. *)
Context {Args R W E : Type}.

(** How the body of a callable completes. *)
Inductive completion :=
  | Normal (r : R) (s : W)
  | Raise (e : E) (s : W).

(** The code of the free functions of the program, by address. *)
Variable code : positive → Args → W → completion.

(** ** [std::function<_Rt(_Args...)>] *)

(** A [std::function] is empty, or holds a target: a function pointer of
    type [c_function_type], or some other callable object (a closure, a
    bind expression, a function object), of which only the behaviour is
    left; what such an object remembers between calls is part of [W]. *)
Inductive std_function_type :=
  | empty_function
  | ptr_target (addr : positive)
  | obj_target (body : Args → W → completion).

(** The converting constructor [function(F f)] at a function pointer: a
    null pointer gives an empty [std::function]. *)
Definition function_from_pointer (f : c_function_type) : std_function_type :=
  match f with
  | N0 => empty_function
  | Npos addr => ptr_target addr
  end.

(** [target<c_function_type>()]: a pointer to the stored function pointer
    when the target has exactly that type, and a null pointer otherwise;
    [Some p] is a non-null pointer to [p]. *)
Definition target (w : std_function_type) : option c_function_type :=
  match w with
  | ptr_target addr => Some (Npos addr)
  | _ => None
  end.

(** ** The state and the monad of the member functions *)

Inductive exception :=
  | DelegateInvocationException (m_message : string)
  | bad_function_call                 (* calling an empty std::function *)
  | target_exception (e : E).         (* thrown inside a callable *)

(** [class Delegate]: its only data member. *)
Record Delegate := mkDelegate {
  m_invokationList : list std_function_type
}.

(** The live delegates, the state of the rest of the program, and the
    history of the calls of [std::function::operator()]. *)
Record state := State {
  objects : gmap loc Delegate;
  world   : W;
  calls   : list (std_function_type * Args)
}.

(** A member function returns, throws, or leaves the defined behaviour of
    C++ (a dead object, an invalid iterator). *)
Inductive outcome (A : Type) :=
  | Returned (a : A) (σ : state)
  | Threw (e : exception) (σ : state)
  | Undefined.
#[global] Arguments Returned {A} a σ.
#[global] Arguments Threw {A} e σ.
#[global] Arguments Undefined {A}.

Definition M (A : Type) : Type := state → outcome A.

#[global] Instance M_ret : MRet M := λ A a σ, Returned a σ.
#[global] Instance M_bind : MBind M := λ A B k m σ,
  match m σ with
  | Returned a σ' => k a σ'
  | Threw e σ' => Threw e σ'
  | Undefined => Undefined
  end.

Definition throw {A} (e : exception) : M A := λ σ, Threw e σ.
Definition undefined {A} : M A := λ _, Undefined.

(** ** [std::vector] operations on the member [m_invokationList] *)

Definition update (this : loc) (l : list std_function_type) (σ : state) : state :=
  State (<[this := mkDelegate l]> (objects σ)) (world σ) (calls σ).

(** Reading the vector of [this]. *)
Definition get_list (this : loc) : M (list std_function_type) := λ σ,
  match objects σ !! this with
  | Some d => Returned (m_invokationList d) σ
  | None => Undefined
  end.

(** Writing the vector of [this]. *)
Definition put_list (this : loc) (l : list std_function_type) : M unit := λ σ,
  match objects σ !! this with
  | Some _ => Returned tt (update this l σ)
  | None => Undefined
  end.

(** [m_invokationList.empty()] *)
Definition vector_empty (this : loc) : M bool :=
  l ← get_list this; mret (bool_decide (l = [])).

(** [m_invokationList.size()] *)
Definition vector_size (this : loc) : M nat :=
  l ← get_list this; mret (length l).

(** [m_invokationList.push_back(func)] *)
Definition push_back (this : loc) (func : std_function_type) : M unit :=
  l ← get_list this; put_list this (l ++ [func]).

(** [m_invokationList.clear()] *)
Definition vector_clear (this : loc) : M unit :=
  _ ← get_list this; put_list this [].

(** [m_invokationList[i]], and [*it] for an iterator at position [i];
    undefined outside the vector. *)
Definition vector_at (this : loc) (i : nat) : M std_function_type :=
  l ← get_list this;
  match l !! i with
  | Some w => mret w
  | None => undefined
  end.

(** [m_invokationList.erase(begin() + i)] *)
Definition vector_erase (this : loc) (i : nat) : M unit :=
  l ← get_list this;
  if bool_decide (i < length l) then put_list this (delete i l) else undefined.

(** [this->m_invokationList = copy.m_invokationList] *)
Definition vector_copy_assign (this copy : loc) : M unit :=
  l ← get_list copy; put_list this l.

(** [this->m_invokationList = std::move(other.m_invokationList)]: the
    destination takes the buffer of the source over, and the source is
    left empty (what the implementations of the standard library do with
    [std::allocator]). *)
Definition vector_move_assign (this other : loc) : M unit :=
  l ← get_list other; put_list this l;; put_list other [].

(** Storage for a new object, with [m_invokationList] default-initialised;
    and the end of the lifetime of an object. *)
Definition allocate : M loc := λ σ,
  let this := fresh (dom (objects σ)) in
  Returned this (update this [] σ).

Definition release (this : loc) (σ : state) : state :=
  State (delete this (objects σ)) (world σ) (calls σ).

Definition destroy (this : loc) : M unit := λ σ,
  match objects σ !! this with
  | Some _ => Returned tt (release this σ)
  | None => Undefined
  end.

(** ** [std::function::operator()] *)

Definition record_call (w : std_function_type) (params : Args) (σ : state) : state :=
  State (objects σ) (world σ) (calls σ ++ [(w, params)]).

Definition run_target (body : W → completion) : M R := λ σ,
  match body (world σ) with
  | Normal r s => Returned r (State (objects σ) s (calls σ))
  | Raise e s => Threw (target_exception e) (State (objects σ) s (calls σ))
  end.

(** The call [w(params...)]: an empty [std::function] throws
    [std::bad_function_call], the others run their target. *)
Definition call (w : std_function_type) (params : Args) : M R := λ σ,
  let σ := record_call w params σ in
  match w with
  | empty_function => Threw bad_function_call σ
  | ptr_target addr => run_target (code addr params) σ
  | obj_target body => run_target (body params) σ
  end.

(** The range-based [for] over a vector that the body leaves alone. *)
Fixpoint for_each {A} (l : list A) (body : A → M unit) : M unit :=
  match l with
  | [] => mret tt
  | x :: l' => body x;; for_each l' body
  end.

(** ** Constructors *)

(** [Delegate() : m_invokationList() { }] *)
Definition Delegate_default : M loc := allocate.

(** [Delegate(function_type func) : Delegate()]; the parameter of function
    type is a function pointer. *)
Definition Delegate_function (func : c_function_type) : M loc :=
  this ← Delegate_default;
  push_back this (function_from_pointer func);;
  mret this.

(** [Delegate(std::initializer_list<std_function_type> list) : Delegate()] *)
Definition Delegate_list (list : list std_function_type) : M loc :=
  this ← Delegate_default;
  for_each list (λ func, push_back this func);;
  mret this.

(** [Delegate(const _delegate& copy)] *)
Definition Delegate_copy (copy : loc) : M loc :=
  this ← allocate;
  vector_copy_assign this copy;;
  mret this.

(** [Delegate(_delegate&& other) noexcept] *)
Definition Delegate_move (other : loc) : M loc :=
  this ← allocate;
  vector_move_assign this other;;
  mret this.

(** ** Methods *)

(** [bool is_null() const noexcept] *)
Definition is_null (this : loc) : M bool := vector_empty this.

(** [_delegate& add(function_type func)] *)
Definition add (this : loc) (func : c_function_type) : M loc :=
  push_back this (function_from_pointer func);;
  mret this.

(** [_delegate& add(const _delegate& other)]; when [other] is [*this] the
    first [push_back] invalidates the iterators of the loop. *)
Definition add_delegate (this other : loc) : M loc :=
  l ← get_list other;
  (if bool_decide (this = other ∧ l ≠ []) then undefined
   else for_each l (λ func, push_back this func));;
  mret this.

(** The test of the loop of [remove]:
    [func_ptr != nullptr && *func_ptr == func]. *)
Definition is_target (func : c_function_type) (w : std_function_type) : bool :=
  match target w with
  | Some func_ptr => bool_decide (func_ptr = func)
  | None => false
  end.

(** The loop of [remove], from [it] to [rend()].  The reverse iterator [it]
    is given by [it.base() - begin()]: it is [rend()] at 0, [*it] is the
    element before [it.base()], and [--it.base()] is the position of that
    element. *)
Fixpoint remove_loop (this : loc) (func : c_function_type) (it_base : nat) : M unit :=
  match it_base with
  | 0 => mret tt
  | S i =>
      w ← vector_at this i;
      if is_target func w then vector_erase this i
      else remove_loop this func i
  end.

(** [_delegate& remove(function_type func) noexcept] *)
Definition remove (this : loc) (func : c_function_type) : M loc :=
  null ← is_null this;
  if null : bool then mret this
  else
    size ← vector_size this;
    remove_loop this func size;;
    mret this.

(** [_delegate& clear()] *)
Definition clear (this : loc) : M loc :=
  vector_clear this;;
  mret this.

(** The loop of [invoke], from [func_iter] to [end() - 1], which is
    [steps] elements away. *)
Fixpoint invoke_loop (this : loc) (params : Args) (func_iter steps : nat) : M unit :=
  match steps with
  | 0 => mret tt
  | S steps' =>
      func ← vector_at this func_iter;
      _ ← call func params;
      invoke_loop this params (S func_iter) steps'
  end.

(** [return_type invoke(_Args... params)] *)
Definition invoke (this : loc) (params : Args) : M R :=
  null ← is_null this;
  if null : bool then throw (DelegateInvocationException "Failed to invoke delegate")
  else
    size ← vector_size this;
    invoke_loop this params 0 (size - 1);;
    last_func ← vector_at this (size - 1);
    call last_func params.

(** ** Overloaded operators *)

(** [_delegate& operator=(const _delegate& copy) noexcept] *)
Definition operator_assign_copy (this copy : loc) : M loc :=
  vector_copy_assign this copy;;
  mret this.

(** [_delegate& operator=(std_function_type& func)] *)
Definition operator_assign_std_function (this : loc) (func : std_function_type) : M loc :=
  vector_clear this;;
  push_back this func;;
  mret this.

(** [_delegate& operator=(function_type& func)]: [func] refers to a
    function, whose address is not null. *)
Definition operator_assign_function (this : loc) (func : positive) : M loc :=
  vector_clear this;;
  push_back this (function_from_pointer (Npos func));;
  mret this.

(** [_delegate& operator=(_delegate&& other) noexcept] *)
Definition operator_assign_move (this other : loc) : M loc :=
  (if bool_decide (this ≠ other) then vector_move_assign this other
   else mret tt);;
  mret this.

(** [_delegate& operator+=(function_type func)] *)
Definition operator_plus_assign (this : loc) (func : c_function_type) : M loc :=
  add this func.

(** [_delegate& operator+=(_delegate& other)] *)
Definition operator_plus_assign_delegate (this other : loc) : M loc :=
  add_delegate this other.

(** [_delegate& operator-=(function_type func)] *)
Definition operator_minus_assign (this : loc) (func : c_function_type) : M loc :=
  remove this func.

(** [_delegate operator+(_delegate other)], called on an lvalue [arg]: the
    parameter [other] is copy-constructed from [arg] and destroyed when
    the call is over; the local [result] is the returned object. *)
Definition operator_plus (this arg : loc) : M loc :=
  other ← Delegate_copy arg;
  result ← Delegate_default;
  r ← add_delegate result this;
  add_delegate r other;;
  destroy other;;
  mret result.

(** [return_type operator()(_Args... params)] *)
Definition operator_call (this : loc) (params : Args) : M R :=
  invoke this params.

(** [std::function<_Rt(_Args...)>] as a type: a class with a call
    operator, and without a conversion to a function pointer. *)
Definition std_function_class : IsCallable.cpp_type :=
  IsCallable.ClassType
    (IsCallable.ClassDecl IsCallable.key_class "std::function"
       [IsCallable.MemberFn IsCallable.call_operator "_Rt" ["_Args..."]] []).

(** An argument of class type of the template constructor and of the
    template [operator+=]: a function object of type [_Ty] (a closure, a
    bind expression, an object of a class with a call operator), or a
    [std::function<_Rt(_Args...)>].  An argument of type [Delegate] never
    reaches the template constructor: it selects the copy or the move
    constructor. *)
Inductive callable_argument :=
  | function_object (_Ty : IsCallable.cpp_type) (body : Args → W → completion)
  | function_value (f : std_function_type).

Definition argument_type (fn : callable_argument) : IsCallable.cpp_type :=
  match fn with
  | function_object _Ty _ => _Ty
  | function_value _ => std_function_class
  end.

(** The element that [m_invokationList.push_back(fn)] stores: the
    converting constructor of [std::function] wraps a function object, and
    its copy constructor keeps the target of a [std::function], a function
    pointer or none included. *)
Definition function_from_callable (fn : callable_argument) : std_function_type :=
  match fn with
  | function_object _ body => obj_target body
  | function_value f => f
  end.

(** [template<class _Ty> Delegate(_Ty fn) : Delegate()].  The
    [static_assert(is_callable_v<_Ty>, ...)] is an obligation of the
    program that calls it: a call that does not meet it is not compiled. *)
Definition Delegate_callable (fn : callable_argument)
    (static_assert : IsCallable.is_callable_v (argument_type fn) = true) : M loc :=
  this ← Delegate_default;
  push_back this (function_from_callable fn);;
  mret this.

(** [template<class _callable> _delegate& operator+=(_callable func)]: in
    [this->add(func)] the argument is converted to a temporary [Delegate]
    by the constructor above, for [add(const _delegate&)].  When the type
    of the argument also converts to a function pointer (a closure without
    captures), [add(function_type)] is as good a candidate, the call is
    ambiguous and the program is not compiled: the second obligation. *)
Definition operator_plus_assign_callable (this : loc) (func : callable_argument)
    (static_assert : IsCallable.is_callable_v (argument_type func) = true)
    (unambiguous : IsCallable.converts_to_function_pointer (argument_type func) = false)
    : M loc :=
  temporary ← Delegate_callable func static_assert;
  r ← add_delegate this temporary;
  destroy temporary;;
  mret r.

(** The same template with [_callable] a [Delegate], which an rvalue
    operand selects ([operator+=(_delegate&)] takes lvalues only): the
    parameter [func] is move-constructed from the operand [arg], no
    temporary is needed for [add(const _delegate&)], and [func] is
    destroyed when the call is over. *)
Definition operator_plus_assign_rvalue (this arg : loc) : M loc :=
  func ← Delegate_move arg;
  r ← add_delegate this func;
  destroy func;;
  mret r.

(** ** The older header: loops over a [uint32_t] index *)

(** The older [Delegate.h] writes the loops of [remove] and [invoke] with a
    [uint32_t] counter, compared with the [size_t] result of [size()]
    (64 bits).  A counter that wraps around may never reach the bound, so
    these loops take fuel: [None] is a loop that did not end within it. *)
Definition uint32_t (z : Z) : Z := (z `mod` 2 ^ 32)%Z.
Definition size_t (z : Z) : Z := (z `mod` 2 ^ 64)%Z.

Definition MF (A : Type) : Type := state → option (outcome A).

#[global] Instance MF_ret : MRet MF := λ A a σ, Some (Returned a σ).
#[global] Instance MF_bind : MBind MF := λ A B k m σ,
  match m σ with
  | Some (Returned a σ') => k a σ'
  | Some (Threw e σ') => Some (Threw e σ')
  | Some Undefined => Some Undefined
  | None => None
  end.

Definition lift {A} (m : M A) : MF A := λ σ, Some (m σ).
Definition out_of_fuel {A} : MF A := λ _, None.

(** [m_invokationList.size()] as a [size_t], and [m_invokationList[i]]. *)
Definition vector_size_t (this : loc) : M Z :=
  n ← vector_size this; mret (Z.of_nat n).

Definition vector_index (this : loc) (i : Z) : M std_function_type :=
  vector_at this (Z.to_nat i).

(** [for (uint32_t i = 0; i < m_invokationList.size(); ++i)] of the older
    [remove], from the value [i] of the counter on. *)
Fixpoint remove_loop_indexed (fuel : nat) (this : loc) (func : c_function_type)
    (i : Z) : MF unit :=
  match fuel with
  | 0 => out_of_fuel
  | S fuel' =>
      size ← lift (vector_size_t this);
      if bool_decide (i < size)%Z then
        let index := uint32_t (size_t (size - i - 1)) in
        w ← lift (vector_index this index);
        if is_target func w then lift (vector_erase this (Z.to_nat index))
        else remove_loop_indexed fuel' this func (uint32_t (i + 1))
      else mret tt
  end.

(** [remove] of the older header. *)
Definition remove_indexed (fuel : nat) (this : loc) (func : c_function_type) : MF loc :=
  null ← lift (is_null this);
  if null : bool then mret this
  else
    remove_loop_indexed fuel this func 0;;
    mret this.

(** [for (uint32_t i = 0; i < bound; ++i) m_invokationList[i](params...)],
    where [bound] is computed from [size()] at every test. *)
Fixpoint call_loop_indexed (fuel : nat) (this : loc) (params : Args)
    (bound : Z → Z) (i : Z) : MF unit :=
  match fuel with
  | 0 => out_of_fuel
  | S fuel' =>
      size ← lift (vector_size_t this);
      if bool_decide (i < bound size)%Z then
        w ← lift (vector_index this i);
        _ ← lift (call w params);
        call_loop_indexed fuel' this params bound (uint32_t (i + 1))
      else mret tt
  end.

(** [void invoke_void(_Args... params)] *)
Definition invoke_void (fuel : nat) (this : loc) (params : Args) : MF unit :=
  call_loop_indexed fuel this params (λ size, size) 0.

(** [return_type invoke_nonvoid(_Args... params)] *)
Definition invoke_nonvoid (fuel : nat) (this : loc) (params : Args) : MF R :=
  call_loop_indexed fuel this params (λ size, size_t (size - 1)) 0;;
  size ← lift (vector_size_t this);
  let last := uint32_t (size_t (size - 1)) in
  w ← lift (vector_index this last);
  lift (call w params).

(** [invoke] of the older header.  [void_value] is [Some v] when
    [std::is_same<void, return_type>::value], with [v] the value of a
    [void] expression, and [None] otherwise. *)
Definition invoke_indexed (void_value : option R) (fuel : nat) (this : loc)
    (params : Args) : MF R :=
  null ← lift (is_null this);
  if null : bool then
    lift (throw (DelegateInvocationException "Failed to invoke delegate"))
  else
    match void_value with
    | Some v => invoke_void fuel this params;; mret v
    | None => invoke_nonvoid fuel this params
    end.

(** ** The program around the delegates *)

(** Reading and writing a variable of the program that is no delegate (a
    static local, a stream). *)
Definition get_world : M W := λ σ, Returned (world σ) σ.

Definition put_world (s : W) : M unit := λ σ,
  Returned tt (State (objects σ) s (calls σ)).

(** [lhs = callable], for a closure, a bind expression, a function object
    or an rvalue [std::function]: the right-hand side is converted to a
    temporary [Delegate] by the template constructor, the temporary binds
    to the parameter of [operator=(_delegate&&)], and it is destroyed when
    the assignment is over.  (An lvalue [std::function] selects
    [operator=(std_function_type&)].) *)
Definition assign_callable (this : loc) (fn : callable_argument)
    (static_assert : IsCallable.is_callable_v (argument_type fn) = true) : M loc :=
  temporary ← Delegate_callable fn static_assert;
  r ← operator_assign_move this temporary;
  destroy temporary;;
  mret r.

(** ** Notions for the statements *)

(** [this] is a live delegate whose invocation list is [l]. *)
Definition live (σ : state) (this : loc) (l : list std_function_type) : Prop :=
  objects σ !! this = Some (mkDelegate l).

(** The history of calling each wrapper of [ws] once, in the order of the
    list, with [params]. *)
Definition calls_of (ws : list std_function_type) (params : Args)
    : list (std_function_type * Args) :=
  map (λ w, (w, params)) ws.

(** The call of [w] with [params] returns, whatever the state. *)
Definition returns_normally (w : std_function_type) (params : Args) : Prop :=
  ∀ σ, ∃ r σ', call w params σ = Returned r σ'.

(** [invoke] in the words of the specification: it fails on the empty
    list, and otherwise calls every wrapper in insertion order with the
    same arguments; the result is that of the last wrapper, and the
    results of the earlier ones are dropped. *)
Fixpoint spec_invoke_from (w : std_function_type) (rest : list std_function_type)
    (params : Args) : M R :=
  match rest with
  | [] => call w params
  | w' :: rest' => _ ← call w params; spec_invoke_from w' rest' params
  end.

Definition spec_invoke (ws : list std_function_type) (params : Args) : M R :=
  match ws with
  | [] => throw (DelegateInvocationException "Failed to invoke delegate")
  | w :: rest => spec_invoke_from w rest params
  end.

(** The operation [m] returns from [σ]; and [m] throws from no state. *)
Definition returns {A} (m : M A) (σ : state) : Prop :=
  ∃ a σ', m σ = Returned a σ'.

Definition never_throws {A} (m : M A) : Prop :=
  ∀ σ e σ', m σ ≠ Threw e σ'.

(** [w] was made from the plain function pointer [func]. *)
Definition pointer_origin (func : c_function_type) (w : std_function_type) : Prop :=
  target w = Some func.

End Delegate.

#[global] Arguments completion : clear implicits.
#[global] Arguments std_function_type : clear implicits.
#[global] Arguments exception : clear implicits.
#[global] Arguments Delegate : clear implicits.
#[global] Arguments state : clear implicits.
#[global] Arguments outcome : clear implicits.
#[global] Arguments M : clear implicits.
#[global] Arguments MF : clear implicits.

End DelegateH.

(* ===================================================================== *)
(** * The programs of the examples *)
(* ===================================================================== *)

Module Example.
Import DelegateH.

#[local] Open Scope string_scope.

(** [int]: 32 bits, two's complement. *)
Definition int (z : Z) : Z := ((z + 2 ^ 31) `mod` 2 ^ 32 - 2 ^ 31)%Z.

(** [Delegate<int(int, int)>]: the callables of the examples have no state
    outside their arguments; a closure may throw a message. *)
Definition Args : Type := Z * Z.
Definition R : Type := Z.
Definition W : Type := unit.
Definition E : Type := string.

(** The free functions [sum], [sub] and [multiply] of
    SimplestUsageExample.cpp, by address. *)
Definition sum : positive := 1.
Definition sub : positive := 2.
Definition multiply : positive := 3.

Definition code (addr : positive) (params : Args) (s : W) : completion R W E :=
  let '(a, b) := params in
  if bool_decide (addr = sum) then Normal (int (a + b)) s
  else if bool_decide (addr = sub) then Normal (int (a - b)) s
  else if bool_decide (addr = multiply) then Normal (int (a * b)) s
  else Normal 0%Z s.   (* not the address of a function of the program *)

(** [struct multiplier { int operator()(int a, int b) { return a * b; } };] *)
Definition multiplier_type : IsCallable.cpp_type :=
  IsCallable.ClassType
    (IsCallable.ClassDecl IsCallable.key_struct "multiplier"
       [IsCallable.MemberFn IsCallable.call_operator "int" ["int"; "int"]] []).

Definition multiplier (params : Args) (s : W) : completion R W E :=
  let '(a, b) := params in Normal (int (a * b)) s.

(** A struct without members, and a union with a call operator. *)
Definition plain_struct : IsCallable.class_decl :=
  IsCallable.ClassDecl IsCallable.key_struct "plain" [] [].

Definition callable_union : IsCallable.class_decl :=
  IsCallable.ClassDecl IsCallable.key_union "u"
    [IsCallable.MemberFn IsCallable.call_operator "void" []] [].

(** [struct derived : multiplier { };], which declares nothing itself. *)
Definition derived_from_multiplier : IsCallable.class_decl :=
  IsCallable.ClassDecl IsCallable.key_struct "derived" []
    [IsCallable.ClassDecl IsCallable.key_struct "multiplier"
       [IsCallable.MemberFn IsCallable.call_operator "int" ["int"; "int"]] []].

(** The type of a closure without captures, [[](int a, int b) { ... }]:
    it has a call operator and a conversion to a function pointer. *)
Definition captureless_closure_type : IsCallable.cpp_type :=
  IsCallable.ClassType
    (IsCallable.ClassDecl IsCallable.key_class "lambda"
       [IsCallable.MemberFn IsCallable.call_operator "int" ["int"; "int"];
        IsCallable.MemberFn IsCallable.conversion_to_function_pointer
          "int (*)(int, int)" []] []).

(** [[](int a, int b) { return a + b; }]: behaves as [sum], is not [sum]. *)
Definition sum_closure : std_function_type Args R W E :=
  obj_target (code sum).

(** [[](int, int) -> int { throw "failed"; }] *)
Definition thrower : std_function_type Args R W E :=
  obj_target (λ _ s, Raise "failed" s).

(** The state of a program that has no delegate yet. *)
Definition start : state Args R W E := State ∅ tt [].

(** A state with one delegate, at address 1, holding [l]. *)
Definition one_delegate (l : list (std_function_type Args R W E)) : state Args R W E :=
  State {[ 1%positive := mkDelegate l ]} tt [].

(** A state with two delegates, at addresses 1 and 2. *)
Definition two_delegates (l1 l2 : list (std_function_type Args R W E))
    : state Args R W E :=
  State {[ 1%positive := mkDelegate l1; 2%positive := mkDelegate l2 ]} tt [].

(** Invocation lists for the statements below. *)
Definition sum_sub : list (std_function_type Args R W E) :=
  [ptr_target sum; ptr_target sub].

Definition sum_sub_sum_multiplier : list (std_function_type Args R W E) :=
  [ptr_target sum; ptr_target sub; ptr_target sum; obj_target multiplier].

Definition sum_thrower_multiply : list (std_function_type Args R W E) :=
  [ptr_target sum; thrower; ptr_target multiply].

(** [main] of SimplestUsageExample.cpp; it returns what it prints. *)
Definition main (static_assert : IsCallable.is_callable_v multiplier_type = true)
    : M Args R W E (Z * Z) :=
  operation ← Delegate_function (Npos sum);
  r ← add operation (Npos sub);
  add r (Npos sum);;
  operator_plus_assign_callable operation (function_object multiplier_type multiplier)
    static_assert eq_refl;;
  someResult ← operator_call code operation (5, 7)%Z;
  operator_assign_function operation sum;;
  second ← operator_call code operation (1, 2)%Z;
  mret (someResult, second).

(** The scenario of the specification: [{sum, sub}], then [multiply]
    appended, invoked with (5, 7); then reassigned to [sum] and invoked
    with (1, 2). *)
Definition scenario : M Args R W E (Z * Z) :=
  operation ← Delegate_list [function_from_pointer (Npos sum);
                             function_from_pointer (Npos sub)];
  add operation (Npos multiply);;
  first ← invoke code operation (5, 7)%Z;
  operator_assign_function operation sum;;
  second ← invoke code operation (1, 2)%Z;
  mret (first, second).

End Example.

(** ** MemberFunctionsExample.cpp *)

Module MemberFunctionsExample.
Import DelegateH.

#[local] Open Scope string_scope.

(** [Foo::MathBinaryOp = Delegate<int(int, int)>]; the state outside the
    delegate is [static bool turn] of [completeOperation]; nothing
    throws. *)
Definition Args : Type := Z * Z.
Definition R : Type := Z.
Definition W : Type := bool.
Definition E : Type := Empty_set.

(** The example has no free function. *)
Definition code (addr : positive) (params : Args) (s : W) : completion R W E :=
  Normal 0%Z s.

(** [int Foo::m_add(int a, int b)] and [int Foo::m_sub(int a, int b)] *)
Definition m_add (a b : Z) : Z := Example.int (a + b).
Definition m_sub (a b : Z) : Z := Example.int (a - b).

(** [std::bind(&Foo::m_add, this, _1, _2)] and its type, a class with call
    operators. *)
Definition bind_m_add (params : Args) (s : W) : completion R W E :=
  let '(a, b) := params in Normal (m_add a b) s.

Definition bind_type : IsCallable.cpp_type :=
  IsCallable.ClassType
    (IsCallable.ClassDecl IsCallable.key_class "_Bind"
       [IsCallable.MemberFn IsCallable.call_operator "auto" ["Args&&..."];
        IsCallable.MemberFn IsCallable.call_operator "auto" ["Args&&..."]] []).

(** [[this](int a, int b) { return this->m_sub(a, b); }] and its closure
    type. *)
Definition lambda_m_sub (params : Args) (s : W) : completion R W E :=
  let '(a, b) := params in Normal (m_sub a b) s.

Definition lambda_type : IsCallable.cpp_type :=
  IsCallable.ClassType
    (IsCallable.ClassDecl IsCallable.key_class "lambda"
       [IsCallable.MemberFn IsCallable.call_operator "int" ["int"; "int"]] []).

(** [int Foo::completeOperation(int a, int b)], on the member
    [m_operation] of the object. *)
Definition completeOperation (m_operation : loc) (a b : Z) : M Args R W E Z :=
  turn ← get_world;
  (if turn : bool
   then assign_callable m_operation (function_object bind_type bind_m_add) eq_refl
   else assign_callable m_operation (function_object lambda_type lambda_m_sub) eq_refl);;
  put_world (negb turn);;
  operator_call code m_operation (a, b).

(** [main]: a [Foo] and two calls; it returns what it prints. *)
Definition main : M Args R W E (Z * Z) :=
  m_operation ← Delegate_default;
  first ← completeOperation m_operation 5 7;
  second ← completeOperation m_operation 5 7;
  mret (first, second).

(** The state in which [main] starts: no object, [turn] initialised to
    [true]. *)
Definition start : state Args R W E := State ∅ true [].

(** A state with one [Foo], whose [m_operation] is at address 1 and
    holds [l]. *)
Definition one_Foo (turn : bool) (l : list (std_function_type Args R W E))
    : state Args R W E :=
  State {[ 1%positive := mkDelegate l ]} turn [].

End MemberFunctionsExample.

(** ** GenericDelegatesExample.cpp *)

Module GenericDelegatesExample.
Import DelegateH.

#[local] Open Scope string_scope.

(** What was written to [std::cout]: values of [T], values of the type [P]
    of a product [t * t] (which is [int] when [T] is [char] or [short],
    and [T] itself for [int] and [float]), and strings. *)
Inductive token (T P : Type) :=
  | out_value (t : T)
  | out_product (p : P)
  | out_string (s : string).
#[global] Arguments out_value {T P} t.
#[global] Arguments out_product {T P} p.
#[global] Arguments out_string {T P} s.

Section Generic.

(** [template<class T>]: the type, the type of [t * t], and [operator*]
    as the program computes it. *)
Context {T P : Type} (mul : T → T → P).

(** [Delegate<void(T)>]; the state outside the delegates is the output
    written so far; nothing throws. *)
Definition output : Type := list (token T P).

(** [std::endl] *)
Definition endl : token T P := out_string (String (Ascii.ascii_of_nat 10) "").

(** [template<class T> void print(T t)]: [std::cout << t << " "] *)
Definition print (t : T) (s : output) : completion unit output Empty_set :=
  Normal tt (s ++ [out_value t; out_string " "])%list.

(** [StaticClass::print_squared<T>]: [std::cout << t * t << std::endl] *)
Definition print_squared (t : T) (s : output) : completion unit output Empty_set :=
  Normal tt (s ++ [out_product (mul t t); endl])%list.

(** The addresses of [print<T>] and [StaticClass::print_squared<T>]. *)
Definition print_address : positive := 1.
Definition print_squared_address : positive := 2.

Definition code (addr : positive) (t : T) (s : output)
    : completion unit output Empty_set :=
  if bool_decide (addr = print_address) then print t s
  else if bool_decide (addr = print_squared_address) then print_squared t s
  else Normal tt s.   (* not the address of a function of the program *)

(** [Delegate<void(T)> printer = { print<T>, StaticClass::print_squared<T> }]
    of [SomeObject<T>]. *)
Definition SomeObject : M T unit output Empty_set loc :=
  Delegate_list [function_from_pointer (Npos print_address);
                 function_from_pointer (Npos print_squared_address)].

(** [template<class T> Delegate<void(T)> member = print<T>] *)
Definition member : M T unit output Empty_set loc :=
  Delegate_function (Npos print_address).

(** The three statements of [main], at one type: [obj.printer(t)], and
    [member<T> += StaticClass::print_squared<T>; member<T>.invoke(t)], and
    [member<T>.invoke(t)] on the variable as initialised. *)
Definition call_printer (t : T) : M T unit output Empty_set unit :=
  obj ← SomeObject;
  operator_call code obj t.

Definition extend_member_and_invoke (t : T) : M T unit output Empty_set unit :=
  m ← member;
  operator_plus_assign m (Npos print_squared_address);;
  invoke code m t.

Definition invoke_member (t : T) : M T unit output Empty_set unit :=
  m ← member;
  invoke code m t.

End Generic.
End GenericDelegatesExample.

(* ===================================================================== *)
(** * Properties of the callable detector *)
(* ===================================================================== *)

Module IsCallableTheory.
Import IsCallable.

#[local] Open Scope string_scope.

(** Lookup of [operator()] in [Derived]: the declarations come from the two
    bases, [T] and [Fallback]. *)
Lemma lookup_Derived (T : class_decl) :
  member_lookup call_operator (Derived T) =
  merge (member_lookup call_operator T)
        (Found "Fallback" [MemberFn call_operator "void" []]).
Proof. reflexivity. Qed.

(** A class that declares the name itself is where the lookup ends. *)
Lemma lookup_declared (f : string) (c : class_decl) :
  declared f (cls_members c) ≠ [] →
  member_lookup f c = Found (cls_name c) (declared f (cls_members c)).
Proof.
  destruct c as [k n ms bs]; simpl.
  destruct (declared f ms) eqn:Hd; [done | reflexivity].
Qed.

(** The trait on a class: [true] exactly when [operator()] is found in [T],
    in which case the name is ambiguous in [Derived]. *)
Lemma impl_value (T : class_decl) :
  _my_is_callable_impl T =
  match member_lookup call_operator T with
  | NotFound => false
  | _ => true
  end.
Proof.
  unfold _my_is_callable_impl, candidates, Check_well_formed.
  rewrite lookup_Derived.
  destruct (member_lookup call_operator T); reflexivity.
Qed.

(** C5. The callable detector classifies a free-function type as [false], a
    primitive type as [false], every type that [std::is_class] rejects
    (function pointers, primitives, unions) as [false] whether or not it can
    be called, a class or struct that declares a call operator of its own as
    [true], and a class or struct in which no call operator is found as
    [false]. *)
Theorem callable_detector_classification :
  (∀ ret params, is_callable_v (FunctionType ret params) = false) ∧
  (∀ name, is_callable_v (Fundamental name) = false) ∧
  (∀ T, is_class_v T = false → is_callable_v T = false) ∧
  (∀ c, is_class_v (ClassType c) = true →
        declared call_operator (cls_members c) ≠ [] →
        is_callable_v (ClassType c) = true) ∧
  (∀ c, is_class_v (ClassType c) = true →
        member_lookup call_operator c = NotFound →
        is_callable_v (ClassType c) = false).
Proof.
  repeat split.
  - intros T HT. destruct T; try reflexivity.
    unfold is_callable_v, is_callable. by rewrite HT.
  - intros c Hc Hd. unfold is_callable_v, is_callable.
    rewrite Hc, impl_value, (lookup_declared _ _ Hd). reflexivity.
  - intros c Hc Hl. unfold is_callable_v, is_callable.
    rewrite Hc, impl_value, Hl. reflexivity.
Qed.

(** The classification at the types of the examples: the function type
    [int(int, int)], [int], a pointer to function, a union with a call
    operator, [struct multiplier] and a struct without members. *)
Lemma callable_detector_classification_witness :
  is_callable_v (FunctionType (Fundamental "int") [Fundamental "int"; Fundamental "int"]) = false ∧
  is_callable_v (Fundamental "int") = false ∧
  is_callable_v (PointerTo (FunctionType (Fundamental "int") [])) = false ∧
  is_callable_v (ClassType Example.callable_union) = false ∧
  is_callable_v Example.multiplier_type = true ∧
  is_callable_v (ClassType Example.plain_struct) = false.
Proof.
  destruct callable_detector_classification as (Hfun & Hprim & Hnon & Hown & Hnone).
  split; [apply Hfun |].
  split; [apply Hprim |].
  split; [apply Hnon; reflexivity |].
  split; [apply Hnon; reflexivity |].
  split; [apply Hown; [reflexivity | discriminate] |].
  apply Hnone; reflexivity.
Defined.

End IsCallableTheory.

(* ===================================================================== *)
(** * Properties of the delegate *)
(* ===================================================================== *)

Module DelegateTheory.
Import DelegateH.

Section Theory.

Context {Args R W E : Type} (code : positive → Args → W → completion R W E).

#[local] Abbreviation state := (state Args R W E).
#[local] Abbreviation wrapper := (std_function_type Args R W E).
#[local] Abbreviation M := (M Args R W E).

Implicit Types (σ : state) (l ws : list wrapper) (w : wrapper).
Implicit Types (this other : loc) (params : Args) (func : c_function_type).

(** ** Running the monad *)

Lemma bind_unfold {A B} (m : M A) (k : A → M B) σ :
  (m ≫= k) σ =
  match m σ with
  | Returned a σ' => k a σ'
  | Threw e σ' => Threw e σ'
  | Undefined => Undefined
  end.
Proof. reflexivity. Qed.

Lemma bind_Returned {A B} (m : M A) (k : A → M B) σ a σ' :
  m σ = Returned a σ' → (m ≫= k) σ = k a σ'.
Proof. intros H. unfold mbind, M_bind. by rewrite H. Qed.

(** ** Live objects and their vector *)

Lemma live_update σ this l : live (update this l σ) this l.
Proof. unfold live, update; simpl. apply lookup_insert_eq. Qed.

Lemma live_update_ne σ this other l l' :
  this ≠ other → live σ other l → live (update this l' σ) other l.
Proof. unfold live, update; simpl. intros Hne H. by rewrite lookup_insert_ne. Qed.

Lemma update_update σ this l l' :
  update this l (update this l' σ) = update this l σ.
Proof. unfold update; simpl. by rewrite insert_insert_eq. Qed.

Lemma update_live σ this l : live σ this l → update this l σ = σ.
Proof.
  unfold live, update. intros H. destruct σ as [o s c]; simpl in *.
  by rewrite insert_id.
Qed.

Lemma get_list_live σ this l : live σ this l → get_list this σ = Returned l σ.
Proof. unfold live, get_list. by intros ->. Qed.

Lemma put_list_live σ this l l' :
  live σ this l → put_list this l' σ = Returned tt (update this l' σ).
Proof. unfold live, put_list. by intros ->. Qed.

Lemma vector_empty_live σ this l :
  live σ this l → vector_empty this σ = Returned (bool_decide (l = [])) σ.
Proof. intros H. unfold vector_empty. by rewrite (bind_Returned _ _ _ _ _ (get_list_live _ _ _ H)). Qed.

Lemma vector_size_live σ this l :
  live σ this l → vector_size this σ = Returned (length l) σ.
Proof. intros H. unfold vector_size. by rewrite (bind_Returned _ _ _ _ _ (get_list_live _ _ _ H)). Qed.

Lemma push_back_live σ this l w :
  live σ this l → push_back this w σ = Returned tt (update this (l ++ [w]) σ).
Proof.
  intros H. unfold push_back.
  rewrite (bind_Returned _ _ _ _ _ (get_list_live _ _ _ H)).
  by apply put_list_live with l.
Qed.

Lemma vector_clear_live σ this l :
  live σ this l → vector_clear this σ = Returned tt (update this [] σ).
Proof.
  intros H. unfold vector_clear.
  rewrite (bind_Returned _ _ _ _ _ (get_list_live _ _ _ H)).
  by apply put_list_live with l.
Qed.

Lemma vector_at_live σ this l i w :
  live σ this l → l !! i = Some w → vector_at this i σ = Returned w σ.
Proof.
  intros H Hi. unfold vector_at.
  rewrite (bind_Returned _ _ _ _ _ (get_list_live _ _ _ H)). by rewrite Hi.
Qed.

Lemma vector_erase_live σ this l i :
  live σ this l → i < length l →
  vector_erase this i σ = Returned tt (update this (delete i l) σ).
Proof.
  intros H Hi. unfold vector_erase.
  rewrite (bind_Returned _ _ _ _ _ (get_list_live _ _ _ H)).
  rewrite bool_decide_true by done. by apply put_list_live with l.
Qed.

(** ** [add] and [remove] *)

Lemma add_live σ this l func :
  live σ this l →
  add this func σ = Returned this (update this (l ++ [function_from_pointer func]) σ).
Proof.
  intros H. unfold add. by rewrite (bind_Returned _ _ _ _ _ (push_back_live _ _ _ _ H)).
Qed.

Lemma is_target_true func w : is_target func w = true ↔ pointer_origin func w.
Proof.
  unfold is_target, pointer_origin. destruct (target w) as [p|]; [| done].
  rewrite bool_decide_eq_true. split; congruence.
Qed.

Lemma is_target_false func w : is_target func w = false ↔ ¬ pointer_origin func w.
Proof. rewrite <- is_target_true. by destruct (is_target func w). Qed.

(** The scan ends at [rend()] without a write when nothing before
    [it.base()] is the target. *)
Lemma remove_loop_no_match σ this func l n :
  live σ this l → n ≤ length l →
  (∀ i w, i < n → l !! i = Some w → ¬ pointer_origin func w) →
  remove_loop this func n σ = Returned tt σ.
Proof.
  intros H. induction n as [|n IH]; intros Hn Hno; [reflexivity |].
  destruct (lookup_lt_is_Some_2 l n) as [w Hw]; [lia |].
  simpl. rewrite (bind_Returned _ _ _ _ _ (vector_at_live _ _ _ _ _ H Hw)).
  assert (is_target func w = false) as ->.
  { apply is_target_false. apply (Hno n); [lia | done]. }
  apply IH; [lia |]. intros i w' Hi. apply Hno. lia.
Qed.

(** The scan erases the first target it meets, which is the one closest to
    the end. *)
Lemma remove_loop_match σ this func l n i w :
  live σ this l → n ≤ length l → i < n →
  l !! i = Some w → pointer_origin func w →
  (∀ j w', i < j → j < n → l !! j = Some w' → ¬ pointer_origin func w') →
  remove_loop this func n σ = Returned tt (update this (delete i l) σ).
Proof.
  intros H. induction n as [|n IH]; intros Hn Hi Hw Hp Hno; [lia |].
  destruct (decide (i = n)) as [-> | Hne].
  - simpl. rewrite (bind_Returned _ _ _ _ _ (vector_at_live _ _ _ _ _ H Hw)).
    assert (is_target func w = true) as -> by by apply is_target_true.
    apply vector_erase_live; [done | lia].
  - destruct (lookup_lt_is_Some_2 l n) as [w' Hw']; [lia |].
    simpl. rewrite (bind_Returned _ _ _ _ _ (vector_at_live _ _ _ _ _ H Hw')).
    assert (is_target func w' = false) as ->.
    { apply is_target_false. apply (Hno n); [lia | lia | done]. }
    apply IH; [lia | lia | done | done |].
    intros j w'' Hj Hjn. apply Hno; [done | lia].
Qed.

Lemma remove_no_match σ this func l :
  live σ this l →
  (∀ w, w ∈ l → ¬ pointer_origin func w) →
  remove this func σ = Returned this σ.
Proof.
  intros H Hno. unfold remove, is_null.
  rewrite (bind_Returned _ _ _ _ _ (vector_empty_live _ _ _ H)).
  case_bool_decide; [reflexivity |].
  rewrite (bind_Returned _ _ _ _ _ (vector_size_live _ _ _ H)).
  rewrite (bind_Returned _ _ σ tt σ); [reflexivity |].
  apply remove_loop_no_match with l; [done | lia |].
  intros i w _ Hw. apply Hno. by apply list_elem_of_lookup_2 with i.
Qed.

Lemma remove_match σ this func l i w :
  live σ this l →
  l !! i = Some w → pointer_origin func w →
  (∀ j w', i < j → l !! j = Some w' → ¬ pointer_origin func w') →
  remove this func σ = Returned this (update this (delete i l) σ).
Proof.
  intros H Hw Hp Hno. unfold remove, is_null.
  rewrite (bind_Returned _ _ _ _ _ (vector_empty_live _ _ _ H)).
  rewrite bool_decide_false by (intros ->; discriminate).
  rewrite (bind_Returned _ _ _ _ _ (vector_size_live _ _ _ H)).
  rewrite (bind_Returned _ _ σ tt (update this (delete i l) σ)); [reflexivity |].
  apply remove_loop_match with w; [done | lia | | done | done |].
  - by apply lookup_lt_Some with w.
  - intros j w' Hj _. by apply Hno.
Qed.

(** ** [std::function::operator()] *)

Lemma call_Returned_inv w params σ r σ' :
  call code w params σ = Returned r σ' →
  objects σ' = objects σ ∧ calls σ' = calls σ ++ [(w, params)].
Proof.
  unfold call, run_target.
  destruct w as [|addr|body]; simpl; [done | |].
  - destruct (code addr params (world σ)); intros [= <- <-]; done.
  - destruct (body params (world σ)); intros [= <- <-]; done.
Qed.

Lemma call_Threw_inv w params σ e σ' :
  call code w params σ = Threw e σ' →
  objects σ' = objects σ ∧ calls σ' = calls σ ++ [(w, params)] ∧
  ∀ msg, e ≠ DelegateInvocationException msg.
Proof.
  unfold call, run_target.
  destruct w as [|addr|body]; simpl.
  - intros [= <- <-]; done.
  - destruct (code addr params (world σ)); intros [= <- <-]; done.
  - destruct (body params (world σ)); intros [= <- <-]; done.
Qed.

Lemma call_defined w params σ : call code w params σ ≠ Undefined.
Proof.
  unfold call, run_target.
  destruct w as [|addr|body]; simpl; [done | |].
  - by destruct (code addr params (world σ)).
  - by destruct (body params (world σ)).
Qed.

Lemma live_objects σ σ' this l :
  objects σ' = objects σ → live σ this l → live σ' this l.
Proof. unfold live. by intros ->. Qed.

Lemma calls_of_app ws ws' params :
  calls_of (ws ++ ws') params = calls_of ws params ++ calls_of ws' params.
Proof. unfold calls_of. apply map_app. Qed.

(** ** The loop of [invoke] *)

(** From position [i], [n] steps of the loop call the wrappers at
    [i, ..., i + n - 1] in this order and stop at the first that throws. *)
Lemma invoke_loop_outcome this ws params n : ∀ i σ,
  live σ this ws → i + n ≤ length ws →
  match invoke_loop code this params i n σ with
  | Returned _ σ' =>
      objects σ' = objects σ ∧
      calls σ' = calls σ ++ calls_of (take n (drop i ws)) params
  | Threw e σ' =>
      ∃ k w σ1, k < n ∧ ws !! (i + k) = Some w ∧
        objects σ1 = objects σ ∧
        calls σ1 = calls σ ++ calls_of (take k (drop i ws)) params ∧
        call code w params σ1 = Threw e σ'
  | Undefined => False
  end.
Proof.
  induction n as [|n IH]; intros i σ H Hn; simpl.
  - split; [done |]. by rewrite app_nil_r.
  - destruct (lookup_lt_is_Some_2 ws i) as [w Hw]; [lia |].
    rewrite (bind_Returned _ _ _ _ _ (vector_at_live _ _ _ _ _ H Hw)).
    rewrite (drop_S _ _ _ Hw).
    unfold mbind at 1, M_bind at 1.
    destruct (call code w params σ) as [r σ1|e σ1|] eqn:Hc.
    + destruct (call_Returned_inv _ _ _ _ _ Hc) as [Ho Hcalls].
      specialize (IH (S i) σ1 (live_objects _ _ _ _ Ho H) ltac:(lia)).
      destruct (invoke_loop code this params (S i) n σ1) as [[] σ'|e σ'|]; [| | done].
      * destruct IH as [Ho' Hc']. split; [congruence |].
        rewrite Hc', Hcalls. simpl. by rewrite <- app_assoc.
      * destruct IH as (k & w' & σk & Hk & Hw' & Hok & Hck & Hthrow).
        exists (S k), w', σk. split; [lia |].
        split; [by rewrite <- Hw'; f_equal; lia |].
        split; [congruence |]. split; [| done].
        rewrite Hck, Hcalls. simpl. by rewrite <- app_assoc.
    + exists 0, w, σ. split; [lia |]. rewrite Nat.add_0_r.
      repeat split; [done | by rewrite app_nil_r | done].
    + by apply call_defined in Hc.
Qed.

(** ** [invoke] *)

(** What a call of [invoke] can do: return the result of the last wrapper
    after the calls of all the others, or throw, itself on the empty list
    or out of the call of the wrapper at some position [k], after the
    calls of the [k] wrappers before it. *)
Lemma invoke_outcome σ this ws params :
  live σ this ws →
  match invoke code this params σ with
  | Returned r σ' =>
      ∃ w σ1, ws !! (length ws - 1) = Some w ∧
        objects σ1 = objects σ ∧
        calls σ1 = calls σ ++ calls_of (take (length ws - 1) ws) params ∧
        call code w params σ1 = Returned r σ'
  | Threw e σ' =>
      (ws = [] ∧ e = DelegateInvocationException "Failed to invoke delegate" ∧ σ' = σ) ∨
      (∃ k w σ1, ws !! k = Some w ∧
        objects σ1 = objects σ ∧
        calls σ1 = calls σ ++ calls_of (take k ws) params ∧
        call code w params σ1 = Threw e σ')
  | Undefined => False
  end.
Proof.
  intros H. unfold invoke, is_null.
  rewrite (bind_Returned _ _ _ _ _ (vector_empty_live _ _ _ H)).
  case_bool_decide as Hws; [by left |].
  rewrite (bind_Returned _ _ _ _ _ (vector_size_live _ _ _ H)).
  assert (0 < length ws) as Hlen by (destruct ws; [done | simpl; lia]).
  pose proof (invoke_loop_outcome this ws params (length ws - 1) 0 σ H ltac:(lia)) as Hloop.
  unfold mbind at 1, M_bind at 1.
  destruct (invoke_loop code this params 0 (length ws - 1) σ) as [[] σ1|e σ1|]; [| | done].
  - destruct Hloop as [Ho Hc]. rewrite drop_0 in Hc.
    destruct (lookup_lt_is_Some_2 ws (length ws - 1)) as [w Hw]; [lia |].
    rewrite (bind_Returned _ _ _ _ _
               (vector_at_live _ _ _ _ _ (live_objects _ _ _ _ Ho H) Hw)).
    destruct (call code w params σ1) as [r σ'|e σ'|] eqn:Hcall.
    + by exists w, σ1.
    + right. by exists (length ws - 1), w, σ1.
    + by apply call_defined in Hcall.
  - destruct Hloop as (k & w & σk & Hk & Hw & Ho & Hc & Hthrow).
    right. exists k, w, σk. rewrite drop_0 in Hc. by simpl in Hw.
Qed.

(** [invoke] writes no delegate, however it ends. *)
Lemma invoke_objects σ this ws params :
  live σ this ws →
  match invoke code this params σ with
  | Returned _ σ' | Threw _ σ' => objects σ' = objects σ
  | Undefined => False
  end.
Proof.
  intros H. pose proof (invoke_outcome σ this ws params H) as Hout.
  destruct (invoke code this params σ) as [r σ'|e σ'|]; [| | done].
  - destruct Hout as (w & σ1 & _ & Ho & _ & Hcall).
    apply call_Returned_inv in Hcall as [-> _]. done.
  - destruct Hout as [(_ & _ & ->) | (k & w & σ1 & _ & Ho & _ & Hcall)]; [done |].
    apply call_Threw_inv in Hcall as [-> _]. done.
Qed.

(** The loop and the last call of [invoke] are the ordered calls of the
    specification. *)
Lemma invoke_loop_spec this ws params rest : ∀ w i σ,
  live σ this ws → drop i ws = w :: rest →
  (invoke_loop code this params i (length rest);;
   last_func ← vector_at this (i + length rest);
   call code last_func params) σ
  = spec_invoke_from code w rest params σ.
Proof.
  induction rest as [|w' rest IH]; intros w i σ H Hdrop.
  - assert (ws !! i = Some w) as Hw.
    { rewrite <- (Nat.add_0_r i), <- lookup_drop, Hdrop. done. }
    simpl. unfold mbind at 1, M_bind at 1, mret, M_ret.
    rewrite Nat.add_0_r.
    by rewrite (bind_Returned _ _ _ _ _ (vector_at_live _ _ _ _ _ H Hw)).
  - assert (ws !! i = Some w) as Hw.
    { rewrite <- (Nat.add_0_r i), <- lookup_drop, Hdrop. done. }
    assert (drop (S i) ws = w' :: rest) as Hdrop'.
    { rewrite <- (Nat.add_1_r i), <- drop_drop, Hdrop. done. }
    simpl. unfold mbind at 1, M_bind at 1.
    rewrite (bind_Returned _ _ _ _ _ (vector_at_live _ _ _ _ _ H Hw)).
    rewrite !(bind_unfold (call code w params)).
    destruct (call code w params σ) as [r σ1|e σ1|] eqn:Hcall; [| done | done].
    destruct (call_Returned_inv _ _ _ _ _ Hcall) as [Ho _].
    rewrite <- (IH w' (S i) σ1 (live_objects _ _ _ _ Ho H) Hdrop').
    unfold mbind, M_bind. by rewrite Nat.add_succ_r.
Qed.

Lemma invoke_spec σ this ws params :
  live σ this ws → invoke code this params σ = spec_invoke code ws params σ.
Proof.
  intros H. unfold invoke, is_null.
  rewrite (bind_Returned _ _ _ _ _ (vector_empty_live _ _ _ H)).
  destruct ws as [|w rest]; [reflexivity |].
  rewrite bool_decide_false by done.
  rewrite (bind_Returned _ _ _ _ _ (vector_size_live _ _ _ H)).
  simpl. rewrite Nat.sub_0_r.
  by apply (invoke_loop_spec this (w :: rest) params rest w 0 σ).
Qed.

(** The scan of [remove] passes over the positions after the last
    occurrence of the target without a write. *)
Lemma remove_loop_skip σ this func l i n :
  live σ this l → i < n → n ≤ length l →
  (∀ j w', i < j → l !! j = Some w' → ¬ pointer_origin func w') →
  remove_loop this func n σ = remove_loop this func (S i) σ.
Proof.
  intros H Hi. induction n as [|n IH]; intros Hn Hno; [lia |].
  destruct (decide (i = n)) as [-> | Hne]; [done |].
  destruct (lookup_lt_is_Some_2 l n) as [w' Hw']; [lia |].
  rewrite <- IH by (done || lia).
  simpl. rewrite (bind_Returned _ _ _ _ _ (vector_at_live _ _ _ _ _ H Hw')).
  assert (is_target func w' = false) as ->; [| done].
  apply is_target_false. apply (Hno n); [lia | done].
Qed.

(** ** Construction, assignment and [operator+] *)

Lemma allocate_fresh σ :
  ∃ new, objects σ !! new = None ∧ allocate σ = Returned new (update new [] σ).
Proof.
  exists (fresh (dom (objects σ))). split; [| done].
  apply not_elem_of_dom, is_fresh.
Qed.

Lemma live_fresh σ this new l : live σ this l → objects σ !! new = None → new ≠ this.
Proof. unfold live. intros H Hnew ->. congruence. Qed.

Lemma destroy_live σ this l : live σ this l → destroy this σ = Returned tt (release this σ).
Proof. unfold live, destroy. by intros ->. Qed.

Lemma release_update σ this l :
  objects σ !! this = None → release this (update this l σ) = σ.
Proof.
  intros H. destruct σ as [o s c]. unfold release, update; simpl in *.
  by rewrite delete_insert_eq, delete_id.
Qed.

Lemma update_comm σ this other l l' :
  this ≠ other →
  update this l (update other l' σ) = update other l' (update this l σ).
Proof.
  intros Hne. unfold update; simpl. f_equal. by apply insert_insert_ne.
Qed.

Lemma for_each_push_back this l' : ∀ l σ,
  live σ this l →
  for_each l' (λ x, push_back this x) σ = Returned tt (update this (l ++ l') σ).
Proof.
  induction l' as [|x l' IH]; intros l σ H; simpl.
  - by rewrite app_nil_r, update_live.
  - rewrite (bind_Returned _ _ _ _ _ (push_back_live _ _ _ x H)).
    rewrite (IH (l ++ [x]) _ (live_update _ _ _)).
    by rewrite update_update, <- app_assoc.
Qed.

Lemma add_delegate_live σ this other l l' :
  live σ this l → live σ other l' → this ≠ other →
  add_delegate this other σ = Returned this (update this (l ++ l') σ).
Proof.
  intros H H' Hne. unfold add_delegate.
  rewrite (bind_Returned _ _ _ _ _ (get_list_live _ _ _ H')).
  rewrite bool_decide_false by (by intros [? _]).
  by rewrite (bind_Returned _ _ _ _ _ (for_each_push_back _ _ _ _ H)).
Qed.


Lemma clear_live σ this l :
  live σ this l → clear this σ = Returned this (update this [] σ).
Proof.
  intros H. unfold clear.
  by rewrite (bind_Returned _ _ _ _ _ (vector_clear_live _ _ _ H)).
Qed.

Lemma vector_copy_assign_live σ this copy l l' :
  live σ this l → live σ copy l' →
  vector_copy_assign this copy σ = Returned tt (update this l' σ).
Proof.
  intros H H'. unfold vector_copy_assign.
  rewrite (bind_Returned _ _ _ _ _ (get_list_live _ _ _ H')).
  by apply put_list_live with l.
Qed.

Lemma vector_move_assign_live σ this other l l' :
  live σ this l → live σ other l' → this ≠ other →
  vector_move_assign this other σ = Returned tt (update other [] (update this l' σ)).
Proof.
  intros H H' Hne. unfold vector_move_assign.
  rewrite (bind_Returned _ _ _ _ _ (get_list_live _ _ _ H')).
  rewrite (bind_Returned _ _ _ _ _ (put_list_live _ _ _ l' H)).
  apply put_list_live with l'. by apply live_update_ne.
Qed.

Lemma Delegate_copy_live σ copy l :
  live σ copy l →
  ∃ new, objects σ !! new = None ∧
    Delegate_copy copy σ = Returned new (update new l σ).
Proof.
  intros H. destruct (allocate_fresh σ) as (new & Hnew & Halloc).
  exists new. split; [done |]. unfold Delegate_copy.
  rewrite (bind_Returned _ _ _ _ _ Halloc).
  pose proof (live_fresh _ _ _ _ H Hnew) as Hne.
  rewrite (bind_Returned _ _ _ _ _
             (vector_copy_assign_live _ new copy [] l (live_update _ _ _)
                (live_update_ne _ _ _ _ _ Hne H))).
  by rewrite update_update.
Qed.

Lemma operator_assign_copy_live σ this copy l l' :
  live σ this l → live σ copy l' →
  operator_assign_copy this copy σ = Returned this (update this l' σ).
Proof.
  intros H H'. unfold operator_assign_copy.
  by rewrite (bind_Returned _ _ _ _ _ (vector_copy_assign_live _ _ _ _ _ H H')).
Qed.

Lemma Delegate_move_live σ other l :
  live σ other l →
  ∃ new, objects σ !! new = None ∧
    Delegate_move other σ = Returned new (update other [] (update new l σ)).
Proof.
  intros H. destruct (allocate_fresh σ) as (new & Hnew & Halloc).
  exists new. split; [done |]. unfold Delegate_move.
  rewrite (bind_Returned _ _ _ _ _ Halloc).
  pose proof (live_fresh _ _ _ _ H Hnew) as Hne.
  rewrite (bind_Returned _ _ _ _ _
             (vector_move_assign_live _ new other [] l (live_update _ _ _)
                (live_update_ne _ _ _ _ _ Hne H) Hne)).
  by rewrite update_update.
Qed.

Lemma operator_assign_move_live σ this other l l' :
  live σ this l → live σ other l' → this ≠ other →
  operator_assign_move this other σ = Returned this (update other [] (update this l' σ)).
Proof.
  intros H H' Hne. unfold operator_assign_move.
  rewrite bool_decide_true by done.
  by rewrite (bind_Returned _ _ _ _ _ (vector_move_assign_live _ _ _ _ _ H H' Hne)).
Qed.

Lemma operator_assign_move_self σ this :
  operator_assign_move this this σ = Returned this σ.
Proof. unfold operator_assign_move. by rewrite bool_decide_false by (by intros ?). Qed.

Lemma operator_assign_std_function_live σ this l w :
  live σ this l →
  operator_assign_std_function this w σ = Returned this (update this [w] σ).
Proof.
  intros H. unfold operator_assign_std_function.
  rewrite (bind_Returned _ _ _ _ _ (vector_clear_live _ _ _ H)).
  rewrite (bind_Returned _ _ _ _ _ (push_back_live _ _ _ w (live_update _ _ _))).
  by rewrite update_update.
Qed.

Lemma operator_assign_function_live σ this l addr :
  live σ this l →
  operator_assign_function this addr σ = Returned this (update this [ptr_target addr] σ).
Proof.
  intros H. unfold operator_assign_function.
  rewrite (bind_Returned _ _ _ _ _ (vector_clear_live _ _ _ H)).
  rewrite (bind_Returned _ _ _ _ _ (push_back_live _ _ _ _ (live_update _ _ _))).
  by rewrite update_update.
Qed.

Lemma operator_plus_live σ a b la lb :
  live σ a la → live σ b lb →
  ∃ result, objects σ !! result = None ∧
    operator_plus a b σ = Returned result (update result (la ++ lb) σ).
Proof.
  intros Ha Hb. unfold operator_plus.
  destruct (Delegate_copy_live σ b lb Hb) as (other & Hother & Hcopy).
  rewrite (bind_Returned _ _ _ _ _ Hcopy).
  set (σ1 := update other lb σ).
  assert (other ≠ a) as Hoa by by apply live_fresh with σ la.
  assert (live σ1 a la) as Ha1 by by apply live_update_ne.
  assert (live σ1 other lb) as Ho1 by apply live_update.
  destruct (allocate_fresh σ1) as (result & Hresult & Halloc).
  assert (objects σ !! result = None ∧ result ≠ other) as [Hfresh Hro].
  { unfold σ1, update in Hresult; simpl in Hresult.
    apply lookup_insert_None in Hresult as [? ?]. by split. }
  exists result. split; [done |].
  unfold Delegate_default. rewrite (bind_Returned _ _ _ _ _ Halloc).
  assert (result ≠ a) as Hra by by apply live_fresh with σ1 la.
  rewrite (bind_Returned _ _ _ _ _
             (add_delegate_live _ result a [] la (live_update _ _ _)
                (live_update_ne _ _ _ _ _ Hra Ha1) Hra)).
  rewrite update_update. simpl.
  rewrite (bind_Returned _ _ _ _ _
             (add_delegate_live _ result other la lb (live_update _ _ _)
                (live_update_ne _ _ _ _ _ Hro Ho1) Hro)).
  rewrite update_update.
  rewrite (bind_Returned _ _ _ _ _
             (destroy_live _ other lb (live_update_ne _ _ _ _ _ Hro Ho1))).
  unfold σ1. rewrite update_comm by done.
  rewrite release_update; [done |].
  unfold update; simpl. by rewrite lookup_insert_ne.
Qed.

(** ** Operations that do not throw *)

Lemma never_throws_bind {A B} (m : M A) (k : A → M B) :
  never_throws m → (∀ a, never_throws (k a)) → never_throws (m ≫= k).
Proof.
  intros Hm Hk σ e σ'. rewrite bind_unfold.
  destruct (m σ) as [a σ1|e1 σ1|] eqn:Hmσ; [apply Hk | | done].
  by apply Hm in Hmσ.
Qed.

Lemma never_throws_ret {A} (a : A) : never_throws (mret a : M A).
Proof. by intros σ e σ'. Qed.

Lemma never_throws_undefined {A} : never_throws (undefined : M A).
Proof. by intros σ e σ'. Qed.

Lemma never_throws_get_list this : never_throws (get_list this : M _).
Proof. intros σ e σ'. unfold get_list. by destruct (objects σ !! this). Qed.

Lemma never_throws_put_list this l : never_throws (put_list this l : M _).
Proof. intros σ e σ'. unfold put_list. by destruct (objects σ !! this). Qed.

Lemma never_throws_allocate : never_throws (allocate : M _).
Proof. by intros σ e σ'. Qed.

Lemma never_throws_destroy this : never_throws (destroy this : M _).
Proof. intros σ e σ'. unfold destroy. by destruct (objects σ !! this). Qed.

Create HintDb nothrow.
#[local] Hint Resolve never_throws_ret never_throws_undefined never_throws_get_list
  never_throws_put_list never_throws_allocate never_throws_destroy : nothrow.

Ltac nothrow :=
  repeat first
    [ progress auto with nothrow
    | apply never_throws_bind; [| intros ?]
    | case_bool_decide
    | match goal with
      | |- never_throws (match ?x with _ => _ end) => destruct x
      end ].

Lemma never_throws_push_back this w : never_throws (push_back this w : M _).
Proof. unfold push_back. nothrow. Qed.

Lemma never_throws_vector_at this i : never_throws (vector_at this i : M _).
Proof. unfold vector_at. nothrow. Qed.

Lemma never_throws_vector_erase this i : never_throws (vector_erase this i : M _).
Proof. unfold vector_erase. nothrow. Qed.

#[local] Hint Resolve never_throws_push_back never_throws_vector_at
  never_throws_vector_erase : nothrow.


Lemma never_throws_remove_loop this func n : never_throws (remove_loop this func n : M _).
Proof. induction n; simpl; nothrow. Qed.

#[local] Hint Resolve never_throws_remove_loop : nothrow.








Lemma invoke_empty σ this params :
  live σ this [] →
  invoke code this params σ =
  Threw (DelegateInvocationException "Failed to invoke delegate") σ.
Proof. intros H. by rewrite (invoke_spec _ _ _ _ H). Qed.

(** A delegate that holds one wrapper: [invoke] is the call of it. *)
Lemma invoke_single σ this w params :
  live σ this [w] → invoke code this params σ = call code w params σ.
Proof. intros H. by rewrite (invoke_spec _ _ _ _ H). Qed.

(** Assignment from one callable, kept as a [std::function] or given as a
    function: the list is that callable alone, whatever it was. *)
Lemma assignment_replaces_list σ this l :
  live σ this l →
  (∀ w, operator_assign_std_function this w σ = Returned this (update this [w] σ) ∧
        live (update this [w] σ) this [w] ∧
        ∀ params, invoke code this params (update this [w] σ)
                  = call code w params (update this [w] σ)) ∧
  (∀ addr, operator_assign_function this addr σ
             = Returned this (update this [ptr_target addr] σ) ∧
           live (update this [ptr_target addr] σ) this [ptr_target addr] ∧
           ∀ params, invoke code this params (update this [ptr_target addr] σ)
                     = call code (ptr_target addr) params
                         (update this [ptr_target addr] σ)).
Proof.
  intros H. split.
  - intros w. split; [by apply operator_assign_std_function_live with l |].
    split; [apply live_update |]. intros params. apply invoke_single, live_update.
  - intros addr. split; [by apply operator_assign_function_live with l |].
    split; [apply live_update |]. intros params. apply invoke_single, live_update.
Qed.

(** ** The older header agrees with the newer one *)

(** As long as the vector has fewer than 2^32 elements, the [uint32_t]
    counters do not wrap, the index loops run out of no fuel above the
    size of the vector, and [remove] and [invoke] of the older header do
    what those of the newer header do. *)

#[local] Abbreviation MF := (MF Args R W E).

Lemma lift_bind {A B} (m : M A) (k : A → MF B) σ :
  (lift m ≫= k) σ =
  match m σ with
  | Returned a σ' => k a σ'
  | Threw e σ' => Some (Threw e σ')
  | Undefined => Some Undefined
  end.
Proof. reflexivity. Qed.

Lemma uint32_t_small z : (0 ≤ z < 2 ^ 32)%Z → uint32_t (size_t z) = z ∧ uint32_t z = z.
Proof.
  intros Hz. unfold uint32_t, size_t.
  rewrite (Z.mod_small z (2 ^ 64)) by lia. by rewrite Z.mod_small by lia.
Qed.

Lemma vector_size_t_live σ this l :
  live σ this l → vector_size_t this σ = Returned (Z.of_nat (length l)) σ.
Proof.
  intros H. unfold vector_size_t.
  by rewrite (bind_Returned _ _ _ _ _ (vector_size_live _ _ _ H)).
Qed.

Lemma remove_loop_indexed_agrees σ this func l :
  live σ this l → (Z.of_nat (length l) < 2 ^ 32)%Z →
  ∀ m k fuel, k + m = length l → m < fuel →
  remove_loop_indexed fuel this func (Z.of_nat k) σ = Some (remove_loop this func m σ).
Proof.
  intros H Hsize. induction m as [|m IH]; intros k fuel Hk Hfuel;
    (destruct fuel as [|fuel]; [lia |]); simpl;
    rewrite lift_bind, (vector_size_t_live _ _ _ H).
  - by rewrite bool_decide_false by lia.
  - rewrite bool_decide_true by lia.
    replace (Z.of_nat (length l) - Z.of_nat k - 1)%Z with (Z.of_nat m) by lia.
    destruct (uint32_t_small (Z.of_nat m)) as [-> _]; [lia |].
    unfold vector_index. rewrite Nat2Z.id, lift_bind.
    destruct (lookup_lt_is_Some_2 l m) as [w Hw]; [lia |].
    rewrite (bind_Returned _ _ _ _ _ (vector_at_live _ _ _ _ _ H Hw)).
    rewrite (vector_at_live _ _ _ _ _ H Hw).
    destruct (is_target func w); [done |].
    destruct (uint32_t_small (Z.of_nat k + 1)) as [_ ->]; [lia |].
    replace (Z.of_nat k + 1)%Z with (Z.of_nat (S k)) by lia.
    apply IH; lia.
Qed.

Lemma remove_indexed_agrees σ this func l fuel :
  live σ this l → (Z.of_nat (length l) < 2 ^ 32)%Z → length l < fuel →
  remove_indexed fuel this func σ = Some (remove this func σ).
Proof.
  intros H Hsize Hfuel. unfold remove_indexed, remove, is_null.
  rewrite lift_bind, (vector_empty_live _ _ _ H).
  rewrite (bind_Returned _ _ _ _ _ (vector_empty_live _ _ _ H)).
  case_bool_decide; [done |].
  rewrite (bind_Returned _ _ _ _ _ (vector_size_live _ _ _ H)).
  unfold mbind at 1, MF_bind.
  pose proof (remove_loop_indexed_agrees σ this func l H Hsize (length l) 0 fuel
                eq_refl Hfuel) as Hloop.
  change (Z.of_nat 0) with 0%Z in Hloop. rewrite Hloop.
  rewrite bind_unfold. by destruct (remove_loop this func (length l) σ).
Qed.

Lemma call_loop_indexed_agrees this ws params (bound : Z → Z) (limit : nat) :
  bound (Z.of_nat (length ws)) = Z.of_nat limit → limit ≤ length ws →
  (Z.of_nat (length ws) < 2 ^ 32)%Z →
  ∀ m k fuel σ, live σ this ws → k + m = limit → m < fuel →
  call_loop_indexed code fuel this params bound (Z.of_nat k) σ
  = Some (invoke_loop code this params k m σ).
Proof.
  intros Hbound Hlimit Hsize. induction m as [|m IH]; intros k fuel σ H Hk Hfuel;
    (destruct fuel as [|fuel]; [lia |]); simpl;
    rewrite lift_bind, (vector_size_t_live _ _ _ H), Hbound.
  - by rewrite bool_decide_false by lia.
  - rewrite bool_decide_true by lia.
    unfold vector_index. rewrite Nat2Z.id, lift_bind.
    destruct (lookup_lt_is_Some_2 ws k) as [w Hw]; [lia |].
    rewrite (bind_Returned _ _ _ _ _ (vector_at_live _ _ _ _ _ H Hw)).
    rewrite (vector_at_live _ _ _ _ _ H Hw).
    rewrite lift_bind, bind_unfold.
    destruct (call code w params σ) as [r σ1|e σ1|] eqn:Hcall; [| done | done].
    destruct (uint32_t_small (Z.of_nat k + 1)) as [_ ->]; [lia |].
    replace (Z.of_nat k + 1)%Z with (Z.of_nat (S k)) by lia.
    apply call_Returned_inv in Hcall as [Ho _].
    apply IH; [by apply live_objects with σ | lia | lia].
Qed.

(** One more step of the loop of [invoke] is one more call at its end. *)
Lemma invoke_loop_snoc this params n : ∀ i σ,
  invoke_loop code this params i (S n) σ
  = (invoke_loop code this params i n;;
     w ← vector_at this (i + n); _ ← call code w params; mret tt) σ.
Proof.
  induction n as [|n IH]; intros i σ.
  - simpl. rewrite Nat.add_0_r. unfold mbind, M_bind, mret, M_ret.
    destruct (vector_at this i σ) as [w σ1|e σ1|]; [| done | done].
    by destruct (call code w params σ1).
  - change (invoke_loop code this params i (S (S n)) σ)
      with ((func ← vector_at this i; _ ← call code func params;
             invoke_loop code this params (S i) (S n)) σ).
    change (invoke_loop code this params i (S n))
      with (func ← vector_at this i; _ ← call code func params;
            invoke_loop code this params (S i) n).
    unfold mbind, M_bind.
    destruct (vector_at this i σ) as [w σ1|e σ1|]; [| done | done].
    destruct (call code w params σ1) as [r σ2|e σ2|]; [| done | done].
    rewrite IH. unfold mbind, M_bind. by rewrite Nat.add_succ_r.
Qed.

Lemma invoke_indexed_agrees σ this ws params fuel (void_value : option R) :
  live σ this ws → (Z.of_nat (length ws) < 2 ^ 32)%Z → length ws < fuel →
  (∀ v, void_value = Some v → ∀ r : R, r = v) →
  invoke_indexed code void_value fuel this params σ = Some (invoke code this params σ).
Proof.
  intros H Hsize Hfuel Hvoid. unfold invoke_indexed, invoke, is_null.
  rewrite lift_bind, (vector_empty_live _ _ _ H).
  rewrite (bind_Returned _ _ _ _ _ (vector_empty_live _ _ _ H)).
  case_bool_decide as Hws; [done |].
  assert (0 < length ws) as Hlen by (destruct ws; [done | simpl; lia]).
  rewrite (bind_Returned _ _ _ _ _ (vector_size_live _ _ _ H)).
  destruct void_value as [v|].
  - unfold invoke_void, mbind at 1, MF_bind.
    pose proof (call_loop_indexed_agrees this ws params (λ size, size) (length ws)
                  eq_refl (le_n _) Hsize (length ws) 0 fuel σ H eq_refl Hfuel) as Hcalls.
    change (Z.of_nat 0) with 0%Z in Hcalls. rewrite Hcalls.
    replace (length ws) with (S (length ws - 1)) at 1 by lia.
    rewrite invoke_loop_snoc. simpl.
    rewrite !(bind_unfold (invoke_loop code this params 0 (length ws - 1))).
    destruct (invoke_loop code this params 0 (length ws - 1) σ) as [[] σ1|e σ1|];
      [| done | done].
    rewrite !(bind_unfold (vector_at this (length ws - 1))).
    destruct (vector_at this (length ws - 1) σ1) as [w σ2|e σ2|]; [| done | done].
    rewrite bind_unfold.
    destruct (call code w params σ2) as [r σ3|e σ3|]; [| done | done].
    unfold mret, M_ret, MF_ret. by rewrite (Hvoid v eq_refl r).
  - unfold invoke_nonvoid, mbind at 1, MF_bind.
    assert (size_t (Z.of_nat (length ws) - 1) = Z.of_nat (length ws - 1)) as Hb.
    { unfold size_t. rewrite Z.mod_small; lia. }
    pose proof (call_loop_indexed_agrees this ws params
                  (λ size, size_t (size - 1)) (length ws - 1)
                  Hb ltac:(lia) Hsize (length ws - 1) 0 fuel σ H eq_refl ltac:(lia))
      as Hcalls.
    change (Z.of_nat 0) with 0%Z in Hcalls. rewrite Hcalls.
    rewrite !(bind_unfold (invoke_loop code this params 0 (length ws - 1))).
    pose proof (invoke_loop_outcome this ws params (length ws - 1) 0 σ H ltac:(lia)) as Hloop.
    destruct (invoke_loop code this params 0 (length ws - 1) σ) as [[] σ1|e σ1|];
      [| done | done].
    destruct Hloop as [Ho _]. pose proof (live_objects _ _ _ _ Ho H) as H1.
    rewrite lift_bind, (vector_size_t_live _ _ _ H1).
    rewrite Hb. destruct (uint32_t_small (Z.of_nat (length ws - 1))) as [_ ->]; [lia |].
    unfold vector_index. rewrite Nat2Z.id, lift_bind.
    rewrite bind_unfold. by destruct (vector_at this (length ws - 1) σ1).
Qed.

(** ** The claims of the specification *)

(** C1. For a delegate with a non-empty invocation list [init ++ [w_last]],
    [invoke] is the ordered calls of the specification; when it returns,
    every wrapper of the list was called exactly once, in insertion order
    and with the arguments of [invoke], and the value returned is the
    result of the call of the last wrapper, made after the calls of all the
    others; and it does return when the call of every wrapper returns.
    With fewer than 2^32 wrappers, [invoke] of the older header, given
    fuel above their number, does the same. *)
Theorem invoke_calls_every_wrapper_once_in_order σ this init w_last params :
  live σ this (init ++ [w_last]) →
  invoke code this params σ = spec_invoke code (init ++ [w_last]) params σ ∧
  (∀ r σ', invoke code this params σ = Returned r σ' →
     calls σ' = calls σ ++ calls_of (init ++ [w_last]) params ∧
     ∃ σ1, calls σ1 = calls σ ++ calls_of init params ∧
           call code w_last params σ1 = Returned r σ') ∧
  ((∀ w, w ∈ init ++ [w_last] → returns_normally code w params) →
   returns (invoke code this params) σ) ∧
  ((Z.of_nat (length (init ++ [w_last])) < 2 ^ 32)%Z →
   ∀ fuel void_value,
     length (init ++ [w_last]) < fuel →
     (∀ v, void_value = Some v → ∀ r : R, r = v) →
     invoke_indexed code void_value fuel this params σ
     = Some (invoke code this params σ)).
Proof.
  intros H. split; [by apply invoke_spec |].
  pose proof (invoke_outcome σ this _ params H) as Hout.
  rewrite length_app, Nat.add_sub, take_app_length in Hout. simpl in Hout.
  rewrite list_lookup_middle in Hout by done.
  split; [| split].
  - intros r σ' Hinv. rewrite Hinv in Hout.
    destruct Hout as (w & σ1 & [= <-] & _ & Hc1 & Hcall).
    split; [| by exists σ1].
    apply call_Returned_inv in Hcall as [_ ->].
    by rewrite Hc1, calls_of_app, <- app_assoc.
  - intros Hnormal. unfold returns.
    destruct (invoke code this params σ) as [r σ'|e σ'|]; [by exists r, σ' | | done].
    destruct Hout as [(Hnil & _) | (k & w & σ1 & Hw & _ & _ & Hcall)].
    + by destruct init.
    + destruct (Hnormal w (list_elem_of_lookup_2 _ _ _ Hw) σ1) as (r & σ2 & Hr).
      congruence.
  - intros Hsize fuel void_value Hfuel Hvoid.
    by apply invoke_indexed_agrees with (init ++ [w_last]).
Qed.


(** C3. When wrappers made from the function pointer [func] are in the
    list and the last of them is at position [i], [remove(func)] erases
    the element at position [i] and nothing else: the elements before [i]
    stay where they are and the elements after [i] move down by one, in
    the same order.  The scan runs backward from the end, writes nothing
    on the positions after [i], and stops at [i] with the erase.  With
    fewer than 2^32 elements, [remove] of the older header, given fuel
    above their number, does the same. *)
Theorem remove_erases_last_occurrence σ this func l i w :
  live σ this l →
  l !! i = Some w → pointer_origin func w →
  (∀ j w', i < j → l !! j = Some w' → ¬ pointer_origin func w') →
  remove this func σ = Returned this (update this (delete i l) σ) ∧
  delete i l = take i l ++ drop (S i) l ∧
  (∀ j, j < i → delete i l !! j = l !! j) ∧
  (∀ j, i ≤ j → delete i l !! j = l !! S j) ∧
  remove_loop this func (length l) σ = remove_loop this func (S i) σ ∧
  remove_loop this func (S i) σ = vector_erase this i σ ∧
  ((Z.of_nat (length l) < 2 ^ 32)%Z →
   ∀ fuel, length l < fuel →
     remove_indexed fuel this func σ
     = Some (Returned this (update this (delete i l) σ))).
Proof.
  intros H Hw Hp Hno.
  pose proof (lookup_lt_Some _ _ _ Hw) as Hi.
  pose proof (remove_match _ _ _ _ _ _ H Hw Hp Hno) as Hremove.
  split; [done |].
  split; [apply delete_take_drop |].
  split; [intros j Hj; by apply list_lookup_delete_lt |].
  split; [intros j Hj; by apply list_lookup_delete_ge |].
  split; [by apply remove_loop_skip with l |].
  split.
  - simpl. rewrite (bind_Returned _ _ _ _ _ (vector_at_live _ _ _ _ _ H Hw)).
    by apply is_target_true in Hp as ->.
  - intros Hsize fuel Hfuel.
    by rewrite (remove_indexed_agrees _ _ _ l), Hremove.
Qed.

(** C4. For live delegates [a] and [b] (which may be the same object),
    [a + b] returns a new delegate whose invocation list is the list of
    [a] followed by the list of [b]; nothing else in the state changes, so
    [a] and [b] hold what they held.  Invoking the sum is calling the
    wrappers of [a], then those of [b], in order, and leaves all three
    lists as they are.  The sum holds copies: a later [add] on [a] does not
    reach the sum, and a later [clear] of the sum does not reach [a] or
    [b]. *)
Theorem operator_plus_concatenates_copies σ a b la lb :
  live σ a la → live σ b lb →
  ∃ result σ',
    operator_plus a b σ = Returned result σ' ∧
    objects σ !! result = None ∧ result ≠ a ∧ result ≠ b ∧
    σ' = update result (la ++ lb) σ ∧
    live σ' result (la ++ lb) ∧ live σ' a la ∧ live σ' b lb ∧
    (∀ params,
       invoke code result params σ' = spec_invoke code (la ++ lb) params σ' ∧
       match invoke code result params σ' with
       | Returned _ σ'' | Threw _ σ'' =>
           live σ'' a la ∧ live σ'' b lb ∧ live σ'' result (la ++ lb)
       | Undefined => False
       end) ∧
    (∀ func, ∃ σ'', add a func σ' = Returned a σ'' ∧ live σ'' result (la ++ lb)) ∧
    (∃ σ'', clear result σ' = Returned result σ'' ∧ live σ'' a la ∧ live σ'' b lb).
Proof.
  intros Ha Hb.
  destruct (operator_plus_live σ a b la lb Ha Hb) as (result & Hfresh & Hplus).
  pose proof (live_fresh _ _ _ _ Ha Hfresh) as Hra.
  pose proof (live_fresh _ _ _ _ Hb Hfresh) as Hrb.
  set (σ' := update result (la ++ lb) σ) in *.
  assert (live σ' result (la ++ lb)) as Hr' by apply live_update.
  assert (live σ' a la) as Ha' by by apply live_update_ne.
  assert (live σ' b lb) as Hb' by by apply live_update_ne.
  exists result, σ'. repeat split; try done.
  - by apply invoke_spec.
  - pose proof (invoke_objects σ' result _ params Hr') as Hobj.
    destruct (invoke code result params σ') as [r σ''|e σ''|]; [| | done];
      repeat split; by apply live_objects with σ'.
  - intros func. eexists. split; [by apply (add_live _ _ la) |].
    apply live_update_ne; [by apply not_eq_sym | done].
  - eexists. split; [by apply (clear_live _ _ (la ++ lb)) |].
    split; by apply live_update_ne.
Qed.

(** C6. Move-construction from a live delegate makes a new delegate that
    holds the list of the source, and move-assignment from another
    delegate gives the destination the list of the source; both leave the
    source with an empty list and every other delegate untouched.
    Move-assignment of a delegate to itself changes nothing. *)
Theorem move_transfers_the_list σ this other l0 l :
  live σ this l0 → live σ other l →
  (∃ new σ', Delegate_move other σ = Returned new σ' ∧
     objects σ !! new = None ∧
     σ' = update other [] (update new l σ) ∧
     live σ' new l ∧ live σ' other []) ∧
  (this ≠ other →
   ∃ σ', operator_assign_move this other σ = Returned this σ' ∧
     σ' = update other [] (update this l σ) ∧
     live σ' this l ∧ live σ' other []) ∧
  operator_assign_move this this σ = Returned this σ ∧
  operator_assign_move other other σ = Returned other σ.
Proof.
  intros H H'. split; [| split; [| split]].
  - destruct (Delegate_move_live σ other l H') as (new & Hnew & Hmove).
    pose proof (live_fresh _ _ _ _ H' Hnew) as Hne.
    exists new, (update other [] (update new l σ)).
    repeat split; try done; [| apply live_update].
    apply live_update_ne; [by apply not_eq_sym | apply live_update].
  - intros Hne. exists (update other [] (update this l σ)).
    split; [by apply (operator_assign_move_live _ _ _ l0 l) |].
    repeat split; [| apply live_update].
    apply live_update_ne; [by apply not_eq_sym | apply live_update].
  - apply operator_assign_move_self.
  - apply operator_assign_move_self.
Qed.

(** C7. [invoke] never changes an invocation list: after the call, however
    it ends, every delegate holds the list it held before.  When [invoke]
    throws with a non-empty list, the exception is the one thrown by the
    call of a wrapper, at some position [k]; the wrappers before it were
    called, and the wrappers after it were not. *)
Theorem invoke_never_mutates_the_list σ this ws params :
  live σ this ws →
  match invoke code this params σ with
  | Returned _ σ' => objects σ' = objects σ ∧ live σ' this ws
  | Threw e σ' =>
      objects σ' = objects σ ∧ live σ' this ws ∧
      (ws = [] ∨
       ∃ k w σ1, ws !! k = Some w ∧
         calls σ1 = calls σ ++ calls_of (take k ws) params ∧
         call code w params σ1 = Threw e σ' ∧
         calls σ' = calls σ ++ calls_of (take (S k) ws) params)
  | Undefined => False
  end.
Proof.
  intros H.
  pose proof (invoke_outcome σ this ws params H) as Hout.
  pose proof (invoke_objects σ this ws params H) as Hobj.
  destruct (invoke code this params σ) as [r σ'|e σ'|]; [| | done].
  - split; [done | by apply live_objects with σ].
  - split; [done |]. split; [by apply live_objects with σ |].
    destruct Hout as [(Hnil & _) | (k & w & σ1 & Hw & _ & Hc1 & Hcall)]; [by left |].
    right. exists k, w, σ1. repeat split; try done.
    apply call_Threw_inv in Hcall as (_ & -> & _).
    rewrite Hc1, (take_S_r _ _ _ Hw), calls_of_app, <- app_assoc. done.
Qed.

(** C8. [remove(func)] does nothing, and does not fail, when no wrapper of
    the list was made from the function pointer [func]; a closure, a bind
    expression or a function object is never such a wrapper, whatever it
    does when called, and neither is an empty [std::function]. *)
Theorem remove_is_noop_without_pointer_origin σ this func l :
  live σ this l →
  (∀ w, w ∈ l → ¬ pointer_origin func w) →
  remove this func σ = Returned this σ ∧
  (∀ body, ¬ pointer_origin func (obj_target body : wrapper)) ∧
  ¬ pointer_origin func (empty_function : wrapper).
Proof.
  intros H Hno. split; [by apply remove_no_match with l |].
  split; [intros body |]; unfold pointer_origin; simpl; discriminate.
Qed.

(** C10, amended. For a function pointer [func] that is not null,
    [add(func)] followed by [remove(func)] leaves the delegate, and the
    whole state, as it was before the [add], whether or not [func] was
    in the list already. *)
Theorem add_then_remove_restores σ this func l :
  func ≠ nullptr → live σ this l →
  (d ← add this func; remove d func) σ = Returned this σ.
Proof.
  intros Hnull H.
  rewrite (bind_Returned _ _ _ _ _ (add_live _ _ _ func H)).
  destruct func as [|addr]; [done |]. simpl.
  rewrite (remove_match _ this (N.pos addr) (l ++ [ptr_target addr]) (length l) (ptr_target addr)).
  - by rewrite (delete_middle l []), app_nil_r, update_update, update_live.
  - apply live_update.
  - by apply list_lookup_middle.
  - reflexivity.
  - intros j w' Hj Hw'. apply lookup_lt_Some in Hw'.
    rewrite length_app in Hw'. simpl in Hw'. lia.
Qed.

End Theory.
End DelegateTheory.

(* ===================================================================== *)
(** * The examples, and the theorems at concrete delegates *)
(* ===================================================================== *)

Module ExampleTheory.
Import DelegateH DelegateTheory Example.

(** SimplestUsageExample.cpp prints 35 and 3, and so does the scenario of
    the specification. *)
Lemma main_prints :
  ∃ σ', main eq_refl start = Returned (35, 3)%Z σ'.
Proof. eexists. reflexivity. Qed.

Lemma scenario_yields :
  ∃ σ', scenario start = Returned (35, 3)%Z σ'.
Proof. eexists. reflexivity. Qed.

(** The free functions of the example return, whatever the state. *)
Lemma free_functions_return (w : std_function_type Args R W E) (params : Args) :
  w ∈ [ptr_target sum; ptr_target sub; ptr_target multiply] →
  returns_normally code w params.
Proof.
  intros Hw σ. destruct params as [a b].
  apply list_elem_of_In in Hw. simpl in Hw.
  destruct Hw as [<- | [<- | [<- | []]]]; eexists _, _; reflexivity.
Qed.

(** A closure that throws in the middle of the list: [sum] and the closure
    are called, [multiply] is not, and the list is what it was. *)
Lemma thrower_interrupts :
  invoke code 1%positive (5, 7)%Z (one_delegate sum_thrower_multiply)
  = Threw (target_exception "failed"%string)
      (State (objects (one_delegate sum_thrower_multiply)) tt
         (calls_of [ptr_target sum; thrower] (5, 7)%Z)).
Proof. reflexivity. Qed.

(** Adding a non-empty delegate to itself leaves the defined behaviour:
    the loop of [add] runs over the vector that its body grows. *)
Lemma add_delegate_to_itself :
  add_delegate 1%positive 1%positive (one_delegate sum_sub) = Undefined.
Proof. reflexivity. Qed.

(** After [add(nullptr)] the list holds an empty [std::function], and
    [invoke] throws [std::bad_function_call] when it comes to it. *)
Lemma invoke_after_add_nullptr :
  ∃ σ', (d ← add 1%positive nullptr; invoke code d (5, 7)%Z) (one_delegate sum_sub)
        = Threw bad_function_call σ'.
Proof. eexists. reflexivity. Qed.

(** The [uint32_t] loops of the older header, on lists of the example. *)
Lemma remove_indexed_example :
  remove_indexed 5 1%positive (Npos sum) (one_delegate sum_sub_sum_multiplier)
  = Some (Returned 1%positive
            (update 1%positive [ptr_target sum; ptr_target sub; obj_target multiplier]
               (one_delegate sum_sub_sum_multiplier))).
Proof. reflexivity. Qed.

Lemma invoke_indexed_example :
  ∃ σ', invoke_indexed code None 4 1%positive (5, 7)%Z
          (one_delegate (sum_sub ++ [ptr_target multiply])) = Some (Returned 35%Z σ').
Proof. vm_compute. by eexists. Qed.

(** C1 at [{sum, sub, multiply}] invoked with (5, 7): the call returns,
    the three functions were called in this order, and the result is 35. *)
Lemma invoke_calls_every_wrapper_once_in_order_witness :
  live (one_delegate (sum_sub ++ [ptr_target multiply])) 1%positive
       (sum_sub ++ [ptr_target multiply]) ∧
  returns (invoke code 1%positive (5, 7)%Z)
          (one_delegate (sum_sub ++ [ptr_target multiply])) ∧
  ∀ r σ',
    invoke code 1%positive (5, 7)%Z (one_delegate (sum_sub ++ [ptr_target multiply]))
      = Returned r σ' →
    calls σ' = calls_of (sum_sub ++ [ptr_target multiply]) (5, 7)%Z ∧ r = 35%Z.
Proof.
  destruct (invoke_calls_every_wrapper_once_in_order code
              (one_delegate (sum_sub ++ [ptr_target multiply])) 1%positive
              sum_sub (ptr_target multiply) (5, 7)%Z eq_refl)
    as (_ & Hret & Hnormal & _).
  split; [reflexivity |]. split.
  - apply Hnormal. intros w Hw. apply free_functions_return. exact Hw.
  - intros r σ' Hinv. destruct (Hret r σ' Hinv) as (Hcalls & σ1 & _ & Hcall).
    split; [exact Hcalls |].
    unfold call, run_target in Hcall. simpl in Hcall.
    injection Hcall as Hr _. rewrite <- Hr. reflexivity.
Defined.



(** C3 at [{sum, sub, sum, multiplier()}]: [remove(sum)] erases the second
    [sum], at position 2. *)
Lemma remove_erases_last_occurrence_witness :
  live (one_delegate sum_sub_sum_multiplier) 1%positive sum_sub_sum_multiplier ∧
  remove 1%positive (Npos sum) (one_delegate sum_sub_sum_multiplier)
  = Returned 1%positive
      (update 1%positive [ptr_target sum; ptr_target sub; obj_target multiplier]
         (one_delegate sum_sub_sum_multiplier)).
Proof.
  split; [reflexivity |].
  refine (proj1 (remove_erases_last_occurrence (one_delegate sum_sub_sum_multiplier)
                   1%positive (Npos sum) sum_sub_sum_multiplier 2 (ptr_target sum)
                   eq_refl eq_refl eq_refl _)).
  intros j w' Hj Hw'.
  destruct j as [|[|[|[|j]]]]; simpl in Hw'; try lia; [| discriminate].
  injection Hw' as <-. discriminate.
Defined.

(** C7 at the list with the closure that throws. *)
Lemma invoke_never_mutates_the_list_witness :
  live (one_delegate sum_thrower_multiply) 1%positive sum_thrower_multiply ∧
  match invoke code 1%positive (5, 7)%Z (one_delegate sum_thrower_multiply) with
  | Returned _ σ' =>
      objects σ' = objects (one_delegate sum_thrower_multiply) ∧
      live σ' 1%positive sum_thrower_multiply
  | Threw e σ' =>
      objects σ' = objects (one_delegate sum_thrower_multiply) ∧
      live σ' 1%positive sum_thrower_multiply ∧
      (sum_thrower_multiply = [] ∨
       ∃ k w σ1, sum_thrower_multiply !! k = Some w ∧
         calls σ1 = calls (one_delegate sum_thrower_multiply)
                    ++ calls_of (take k sum_thrower_multiply) (5, 7)%Z ∧
         call code w (5, 7)%Z σ1 = Threw e σ' ∧
         calls σ' = calls (one_delegate sum_thrower_multiply)
                    ++ calls_of (take (S k) sum_thrower_multiply) (5, 7)%Z)
  | Undefined => False
  end.
Proof.
  split; [reflexivity |].
  apply (invoke_never_mutates_the_list code (one_delegate sum_thrower_multiply)
           1%positive sum_thrower_multiply (5, 7)%Z).
  reflexivity.
Defined.

(** C8 at a delegate that holds a closure behaving as [sum], and [sub]:
    [remove(sum)] changes nothing. *)
Lemma remove_is_noop_without_pointer_origin_witness :
  live (one_delegate [sum_closure; ptr_target sub]) 1%positive
       [sum_closure; ptr_target sub] ∧
  remove 1%positive (Npos sum) (one_delegate [sum_closure; ptr_target sub])
  = Returned 1%positive (one_delegate [sum_closure; ptr_target sub]).
Proof.
  split; [reflexivity |].
  refine (proj1 (remove_is_noop_without_pointer_origin
                   (one_delegate [sum_closure; ptr_target sub]) 1%positive (Npos sum)
                   [sum_closure; ptr_target sub] eq_refl _)).
  intros w Hw. apply list_elem_of_In in Hw. simpl in Hw.
  destruct Hw as [<- | [<- | []]]; discriminate.
Defined.

(** C4 at [{sum}] + [{sub, multiplier()}]. *)
Lemma operator_plus_concatenates_copies_witness :
  live (two_delegates [ptr_target sum] [ptr_target sub; obj_target multiplier])
       1%positive [ptr_target sum] ∧
  live (two_delegates [ptr_target sum] [ptr_target sub; obj_target multiplier])
       2%positive [ptr_target sub; obj_target multiplier] ∧
  ∃ result σ',
    operator_plus 1%positive 2%positive
      (two_delegates [ptr_target sum] [ptr_target sub; obj_target multiplier])
      = Returned result σ' ∧
    live σ' result [ptr_target sum; ptr_target sub; obj_target multiplier] ∧
    live σ' 1%positive [ptr_target sum] ∧
    live σ' 2%positive [ptr_target sub; obj_target multiplier].
Proof.
  split; [reflexivity |]. split; [reflexivity |].
  destruct (operator_plus_concatenates_copies code
              (two_delegates [ptr_target sum] [ptr_target sub; obj_target multiplier])
              1%positive 2%positive [ptr_target sum] [ptr_target sub; obj_target multiplier]
              eq_refl eq_refl)
    as (result & σ' & Hplus & _ & _ & _ & _ & Hr & Ha & Hb & _).
  exists result, σ'. repeat split; assumption.
Defined.

(** C6 at a delegate holding [{sum, sub}] and a delegate holding
    [{multiply}]. *)
Lemma move_transfers_the_list_witness :
  live (two_delegates sum_sub [ptr_target multiply]) 1%positive sum_sub ∧
  live (two_delegates sum_sub [ptr_target multiply]) 2%positive [ptr_target multiply] ∧
  (∃ new σ',
     Delegate_move 2%positive (two_delegates sum_sub [ptr_target multiply])
       = Returned new σ' ∧
     live σ' new [ptr_target multiply] ∧ live σ' 2%positive []) ∧
  (∃ σ',
     operator_assign_move 1%positive 2%positive
       (two_delegates sum_sub [ptr_target multiply]) = Returned 1%positive σ' ∧
     live σ' 1%positive [ptr_target multiply] ∧ live σ' 2%positive []) ∧
  operator_assign_move 1%positive 1%positive (two_delegates sum_sub [ptr_target multiply])
    = Returned 1%positive (two_delegates sum_sub [ptr_target multiply]).
Proof.
  destruct (move_transfers_the_list
              (two_delegates sum_sub [ptr_target multiply])
              1%positive 2%positive sum_sub [ptr_target multiply] eq_refl eq_refl)
    as ((new & σ1 & Hctor & _ & _ & Hnew & Hsrc) & Hassign & Hself & _).
  split; [reflexivity |]. split; [reflexivity |].
  split; [exists new, σ1; repeat split; assumption |].
  split; [| exact Hself].
  destruct (Hassign ltac:(discriminate)) as (σ2 & Hmove & _ & Hdst & Hsrc2).
  exists σ2. repeat split; assumption.
Defined.

(** C9. Assigning one callable to a live delegate, as a [std::function] or
    as a function, leaves an invocation list made of that callable alone,
    whatever the list was, and [invoke] is then the call of that callable.
    Reassigning a delegate of the example to [sum] and invoking it with
    (1, 2) yields 3; the scenario of the specification yields 35, then 3. *)
Theorem assignment_from_one_callable_replaces_list :
  (∀ (Args R W E : Type) (code : positive → Args → W → completion R W E)
     (σ : state Args R W E) (this : loc) (l : list (std_function_type Args R W E)),
     live σ this l →
     (∀ w, operator_assign_std_function this w σ = Returned this (update this [w] σ) ∧
           live (update this [w] σ) this [w] ∧
           ∀ params, invoke code this params (update this [w] σ)
                     = call code w params (update this [w] σ)) ∧
     (∀ addr, operator_assign_function this addr σ
                = Returned this (update this [ptr_target addr] σ) ∧
              live (update this [ptr_target addr] σ) this [ptr_target addr] ∧
              ∀ params, invoke code this params (update this [ptr_target addr] σ)
                        = call code (ptr_target addr) params
                            (update this [ptr_target addr] σ))) ∧
  (∀ (σ : state Example.Args Example.R Example.W Example.E) this l,
     live σ this l →
     ∃ σ', (d ← operator_assign_function this sum; invoke code d (1, 2)%Z) σ
           = Returned 3%Z σ' ∧
           live σ' this [ptr_target sum]) ∧
  (∃ σ', scenario start = Returned (35, 3)%Z σ').
Proof.
  split; [| split].
  - intros Args R W E code σ this l H. by apply assignment_replaces_list with l.
  - intros σ this l H.
    destruct (assignment_replaces_list code σ this l H) as [_ Hfun].
    destruct (Hfun sum) as (Hassign & Hlive & Hinvoke).
    rewrite (bind_Returned _ _ _ _ _ Hassign), Hinvoke.
    eexists. split; [reflexivity |]. exact Hlive.
  - eexists. reflexivity.
Qed.

(** C9 at the delegate [{sum, sub, sum, multiplier()}]. *)
Lemma assignment_from_one_callable_replaces_list_witness :
  live (one_delegate sum_sub_sum_multiplier) 1%positive sum_sub_sum_multiplier ∧
  operator_assign_function 1%positive sum (one_delegate sum_sub_sum_multiplier)
    = Returned 1%positive
        (update 1%positive [ptr_target sum] (one_delegate sum_sub_sum_multiplier)) ∧
  ∃ σ', (d ← operator_assign_function 1%positive sum; invoke code d (1, 2)%Z)
          (one_delegate sum_sub_sum_multiplier) = Returned 3%Z σ'.
Proof.
  destruct assignment_from_one_callable_replaces_list as (Hany & Hsum & _).
  split; [reflexivity |]. split.
  - apply (Hany _ _ _ _ code (one_delegate sum_sub_sum_multiplier) 1%positive
             sum_sub_sum_multiplier eq_refl).
  - destruct (Hsum (one_delegate sum_sub_sum_multiplier) 1%positive
                sum_sub_sum_multiplier eq_refl) as (σ' & Hrun & _).
    exists σ'. exact Hrun.
Defined.

(** C10 as stated fails at the null pointer: [add(nullptr)] appends an
    empty [std::function], which [remove(nullptr)] does not find, so the
    invocation list has grown by one element. *)
Lemma add_then_remove_nullptr_counterexample :
  ¬ (∀ (σ : state Args R W E) (this : loc) (func : c_function_type)
       (l : list (std_function_type Args R W E)),
       live σ this l →
       ∃ σ', (d ← add this func; remove d func) σ = Returned this σ' ∧
             live σ' this l).
Proof.
  intros Hclaim.
  destruct (Hclaim (one_delegate []) 1%positive nullptr [] eq_refl)
    as (σ' & Hrun & Hlive).
  vm_compute in Hrun. injection Hrun as <-.
  vm_compute in Hlive. discriminate.
Qed.

(** What the calls do there: the list is the empty wrapper alone. *)
Lemma add_then_remove_nullptr_leaves_empty_wrapper :
  (d ← add 1%positive nullptr; remove d nullptr) (one_delegate [])
  = Returned 1%positive (one_delegate [empty_function]).
Proof. reflexivity. Qed.

(** C10, amended, at [{sum, sub}] and the function [sum]. *)
Lemma add_then_remove_restores_witness :
  Npos sum ≠ nullptr ∧
  live (one_delegate sum_sub) 1%positive sum_sub ∧
  (d ← add 1%positive (Npos sum); remove d (Npos sum)) (one_delegate sum_sub)
  = Returned 1%positive (one_delegate sum_sub).
Proof.
  split; [discriminate |]. split; [reflexivity |].
  apply (add_then_remove_restores (one_delegate sum_sub) 1%positive (Npos sum) sum_sub).
  - discriminate.
  - reflexivity.
Defined.

End ExampleTheory.

(* ===================================================================== *)
(** * More on the callable detector *)
(* ===================================================================== *)

Module IsCallableExtra.
Import IsCallable IsCallableTheory.

#[local] Open Scope string_scope.

Lemma merge_NotFound (a b : lookup_result) :
  merge a b = NotFound ↔ a = NotFound ∧ b = NotFound.
Proof. destruct a, b; simpl; split; (intros [? ?] || intros ?); (done || by split). Qed.

Lemma lookup_bases_NotFound (f : string) (bases : list class_decl) :
  foldr (λ b r, merge (member_lookup f b) r) NotFound bases = NotFound ↔
  ∀ b, b ∈ bases → member_lookup f b = NotFound.
Proof.
  induction bases as [|b bases IH]; simpl.
  - split; [intros _ b Hb; by apply elem_of_nil in Hb | done].
  - rewrite merge_NotFound, IH. split.
    + intros [Hb Hrest] b' Hb'. apply elem_of_cons in Hb' as [-> | Hb']; auto.
    + intros Hall. split; [apply Hall; left | intros b' Hb'; apply Hall; by right].
Qed.

Lemma is_callable_class (c : class_decl) :
  is_callable_v (ClassType c) = true ↔
  cls_key c ≠ key_union ∧ member_lookup call_operator c ≠ NotFound.
Proof.
  unfold is_callable_v, is_callable, is_class_v.
  destruct (cls_key c); rewrite ?impl_value;
    destruct (member_lookup call_operator c); split; (done || by intros [? ?]).
Qed.

(** X1. [is_callable_v<T>] is [true] exactly for the classes and structs
    (not the unions) in which member lookup finds [operator()], whatever
    its signature and however many overloads there are. *)
Theorem is_callable_iff_call_operator_found (T : cpp_type) :
  is_callable_v T = true ↔
  ∃ c, T = ClassType c ∧ cls_key c ≠ key_union ∧
       member_lookup call_operator c ≠ NotFound.
Proof.
  split.
  - destruct T as [| | |c]; try discriminate.
    intros H. exists c. split; [done |]. by apply is_callable_class.
  - intros (c & -> & Hkey & Hfound). by apply is_callable_class.
Qed.

(** X2. A class or struct that declares no call operator itself is
    classified [true] as soon as one of its direct bases has one, found by
    lookup: a call operator that is inherited counts. *)
Theorem is_callable_of_inherited_call_operator (c base : class_decl) :
  cls_key c ≠ key_union →
  declared call_operator (cls_members c) = [] →
  base ∈ cls_bases c →
  member_lookup call_operator base ≠ NotFound →
  is_callable_v (ClassType c) = true.
Proof.
  intros Hkey Hown Hbase Hfound.
  apply is_callable_class. split; [done |].
  destruct c as [k n ms bases]. simpl in *. rewrite Hown.
  rewrite lookup_bases_NotFound. intros Hall. by apply Hfound, Hall.
Qed.

Lemma is_callable_iff_call_operator_found_witness :
  is_callable_v Example.multiplier_type = true.
Proof.
  apply (proj2 (is_callable_iff_call_operator_found Example.multiplier_type)).
  eexists. split; [reflexivity |]. split; discriminate.
Defined.

Lemma is_callable_of_inherited_call_operator_witness :
  is_callable_v (ClassType Example.derived_from_multiplier) = true.
Proof.
  apply (is_callable_of_inherited_call_operator Example.derived_from_multiplier
           (ClassDecl key_struct "multiplier"
              [MemberFn call_operator "int" ["int"; "int"]] [])).
  - discriminate.
  - reflexivity.
  - left.
  - discriminate.
Defined.

End IsCallableExtra.

(* ===================================================================== *)
(** * More on the delegate *)
(* ===================================================================== *)

Module DelegateExtra.
Import DelegateH DelegateTheory.

Section Extra.

Context {Args R W E : Type} (code : positive → Args → W → completion R W E).

#[local] Abbreviation state := (state Args R W E).
#[local] Abbreviation wrapper := (std_function_type Args R W E).
#[local] Abbreviation M := (M Args R W E).

Implicit Types (σ : state) (l ws : list wrapper) (w : wrapper).
Implicit Types (this other : loc) (params : Args) (func : c_function_type).

(** ** [is_null], [clear], [add] *)

Lemma is_null_live σ this l :
  live σ this l → is_null this σ = Returned (bool_decide (l = [])) σ.
Proof. apply vector_empty_live. Qed.

(** X3. On a live delegate [is_null] changes nothing, and it answers
    [true] exactly when the list is empty, which is exactly when [invoke]
    would throw [DelegateInvocationException]. *)
Theorem is_null_tells_whether_invoke_fails σ this l params :
  live σ this l →
  ∃ b, is_null this σ = Returned b σ ∧
    (b = true ↔ l = []) ∧
    (b = true ↔
     ∃ msg σ', invoke code this params σ = Threw (DelegateInvocationException msg) σ').
Proof.
  intros H. exists (bool_decide (l = [])).
  split; [by apply is_null_live |].
  rewrite bool_decide_eq_true. split; [done |]. split.
  - intros ->. eexists _, σ. by apply invoke_empty.
  - intros (msg & σ' & Hinv).
    pose proof (invoke_outcome code σ this l params H) as Hout. rewrite Hinv in Hout.
    destruct Hout as [(Hnil & _) | (k & w & σ1 & _ & _ & _ & Hcall)]; [done |].
    apply call_Threw_inv in Hcall as (_ & _ & Hne). by destruct (Hne msg).
Qed.

(** X4. After [clear] a delegate is null, whatever it held, and clearing
    it again changes nothing more; after [add] it is not null, whatever
    was added, the null pointer included. *)
Theorem clear_and_add_decide_is_null σ this l func :
  live σ this l →
  (c ← clear this; is_null c) σ = Returned true (update this [] σ) ∧
  (c ← clear this; clear c) σ = clear this σ ∧
  (d ← add this func; is_null d) σ
    = Returned false (update this (l ++ [function_from_pointer func]) σ).
Proof.
  intros H. split; [| split].
  - rewrite (bind_Returned _ _ _ _ _ (clear_live _ _ _ H)).
    by rewrite (is_null_live _ _ [] (live_update _ _ _)).
  - rewrite (bind_Returned _ _ _ _ _ (clear_live _ _ _ H)).
    rewrite (clear_live _ _ [] (live_update _ _ _)), (clear_live _ _ _ H).
    by rewrite update_update.
  - rewrite (bind_Returned _ _ _ _ _ (add_live _ _ _ func H)).
    rewrite (is_null_live _ _ _ (live_update _ _ _)).
    rewrite bool_decide_false; [done |]. by destruct l.
Qed.

(** ** Constructors *)

Lemma Delegate_list_new σ ws :
  ∃ new, objects σ !! new = None ∧
    Delegate_list ws σ = Returned new (update new ws σ).
Proof.
  destruct (allocate_fresh σ) as (new & Hnew & Halloc).
  exists new. split; [done |]. unfold Delegate_list, Delegate_default.
  rewrite (bind_Returned _ _ _ _ _ Halloc).
  rewrite (bind_Returned _ _ _ _ _
             (for_each_push_back new ws [] _ (live_update _ _ _))).
  by rewrite update_update.
Qed.

Lemma Delegate_function_new σ func :
  ∃ new, objects σ !! new = None ∧
    Delegate_function func σ = Returned new (update new [function_from_pointer func] σ).
Proof.
  destruct (allocate_fresh σ) as (new & Hnew & Halloc).
  exists new. split; [done |]. unfold Delegate_function, Delegate_default.
  rewrite (bind_Returned _ _ _ _ _ Halloc).
  rewrite (bind_Returned _ _ _ _ _ (push_back_live _ _ _ _ (live_update _ _ _))).
  by rewrite update_update.
Qed.

(** X5. The constructor from an initializer list makes a new delegate, at
    an address that held none, with the callables of the list in the
    order of the list; no other delegate changes, and invoking the new one
    is calling the callables of the list in order (an empty list gives a
    null delegate). *)
Theorem Delegate_list_keeps_the_order σ ws params :
  ∃ new, objects σ !! new = None ∧
    Delegate_list ws σ = Returned new (update new ws σ) ∧
    (d ← Delegate_list ws; is_null d) σ
      = Returned (bool_decide (ws = [])) (update new ws σ) ∧
    (d ← Delegate_list ws; invoke code d params) σ
      = spec_invoke code ws params (update new ws σ).
Proof.
  destruct (Delegate_list_new σ ws) as (new & Hnew & Hctor).
  exists new. split; [done |]. split; [done |].
  rewrite !(bind_Returned _ _ _ _ _ Hctor). split.
  - by apply is_null_live, live_update.
  - by apply invoke_spec, live_update.
Qed.

(** ** Empty wrappers *)

Lemma spec_invoke_from_no_empty params rest : ∀ w σ r σ',
  spec_invoke_from code w rest params σ = Returned r σ' →
  ∀ w', w' ∈ w :: rest → w' ≠ empty_function.
Proof.
  induction rest as [|w2 rest IH]; intros w σ r σ' Hrun w' Hw'; simpl in Hrun.
  - apply list_elem_of_singleton in Hw' as ->. by intros ->.
  - rewrite bind_unfold in Hrun.
    destruct (call code w params σ) as [r1 σ1|e σ1|] eqn:Hcall; [| done | done].
    apply elem_of_cons in Hw' as [-> | Hw'].
    + by intros ->.
    + by apply (IH w2 σ1 r σ').
Qed.

(** X6. A delegate that holds an empty [std::function] (what [add] and the
    constructor make of a null function pointer) is not null, and [invoke]
    never returns from it: it throws, and what it throws is not
    [DelegateInvocationException]. *)
Theorem invoke_with_empty_wrapper_throws σ this ws params :
  live σ this ws → empty_function ∈ ws →
  is_null this σ = Returned false σ ∧
  ∃ e σ', invoke code this params σ = Threw e σ' ∧
          ∀ msg, e ≠ DelegateInvocationException msg.
Proof.
  intros H Hempty. split.
  { rewrite (is_null_live _ _ _ H). rewrite bool_decide_false; [done |].
    intros ->. by apply elem_of_nil in Hempty. }
  pose proof (invoke_outcome code σ this ws params H) as Hout.
  pose proof (invoke_spec code σ this ws params H) as Hspec.
  destruct (invoke code this params σ) as [r σ'|e σ'|]; [| | done].
  - destruct ws as [|w rest]; [by apply elem_of_nil in Hempty |].
    symmetry in Hspec. simpl in Hspec.
    by destruct (spec_invoke_from_no_empty params rest w σ r σ' Hspec _ Hempty).
  - exists e, σ'. split; [done |].
    destruct Hout as [(-> & _) | (k & w & σ1 & _ & _ & _ & Hcall)].
    + by apply elem_of_nil in Hempty.
    + by apply call_Threw_inv in Hcall as (_ & _ & Hne).
Qed.

(** ** [add] of a delegate, and the copies *)

(** X7. [add(other)], for another live delegate, appends the wrappers of
    [other] to the list of [*this], in their order; [other] keeps its
    list, and nothing changes at all when [other] is null.  [operator+=]
    on a delegate is the same operation. *)
Theorem add_delegate_appends σ this other l l' :
  live σ this l → live σ other l' → this ≠ other →
  add_delegate this other σ = Returned this (update this (l ++ l') σ) ∧
  operator_plus_assign_delegate this other σ = add_delegate this other σ ∧
  live (update this (l ++ l') σ) other l' ∧
  (l' = [] → add_delegate this other σ = Returned this σ).
Proof.
  intros H H' Hne.
  pose proof (add_delegate_live σ this other l l' H H' Hne) as Hadd.
  split; [done |]. split; [done |]. split; [by apply live_update_ne |].
  intros ->. by rewrite Hadd, app_nil_r, update_live.
Qed.

(** X8. The copy constructor makes a new delegate with the list of the
    source; the two are independent afterwards: adding to the copy leaves
    the source as it was, and clearing the source leaves the copy as it
    was. *)
Theorem Delegate_copy_is_independent σ src l func :
  live σ src l →
  ∃ new, objects σ !! new = None ∧
    Delegate_copy src σ = Returned new (update new l σ) ∧
    (∃ σ', (c ← Delegate_copy src; add c func) σ = Returned new σ' ∧
           live σ' new (l ++ [function_from_pointer func]) ∧ live σ' src l) ∧
    (∃ σ', (_ ← Delegate_copy src; clear src) σ = Returned src σ' ∧
           live σ' new l ∧ live σ' src []).
Proof.
  intros H. destruct (Delegate_copy_live σ src l H) as (new & Hnew & Hcopy).
  pose proof (live_fresh _ _ _ _ H Hnew) as Hne.
  exists new. split; [done |]. split; [done |].
  rewrite !(bind_Returned _ _ _ _ _ Hcopy). split.
  - eexists. split; [apply (add_live _ _ l), live_update |].
    split; [apply live_update |].
    apply live_update_ne; [done |]. by apply live_update_ne.
  - eexists. split.
    + apply (clear_live _ _ l). by apply live_update_ne.
    + split; [| apply live_update].
      apply live_update_ne; [by apply not_eq_sym | apply live_update].
Qed.

(** X9. Copy assignment replaces the list of the destination by the list
    of the source, whatever the destination held, and leaves the source as
    it was; assigning a delegate to itself changes nothing. *)
Theorem operator_assign_copy_replaces σ this src l l' :
  live σ this l → live σ src l' →
  operator_assign_copy this src σ = Returned this (update this l' σ) ∧
  live (update this l' σ) this l' ∧
  live (update this l' σ) src l' ∧
  operator_assign_copy this this σ = Returned this σ.
Proof.
  intros H H'. split; [by apply operator_assign_copy_live with l |].
  split; [apply live_update |]. split.
  - destruct (decide (this = src)) as [<- | Hne]; [apply live_update |].
    by apply live_update_ne.
  - by rewrite (operator_assign_copy_live _ _ _ l l H H), update_live.
Qed.

(** ** [remove], whatever the list *)

(** When the target occurs before position [n], it has a last occurrence
    before [n]. *)
Lemma last_target func l n :
  n ≤ length l →
  (∃ i w, i < n ∧ l !! i = Some w ∧ pointer_origin func w) →
  ∃ i w, i < n ∧ l !! i = Some w ∧ pointer_origin func w ∧
    ∀ j w', i < j → j < n → l !! j = Some w' → ¬ pointer_origin func w'.
Proof.
  induction n as [|n IH]; intros Hn (i0 & w0 & Hi0 & Hw0 & Hp0); [lia |].
  destruct (lookup_lt_is_Some_2 l n) as [wn Hwn]; [lia |].
  destruct (is_target func wn) eqn:Htarget.
  - exists n, wn. repeat split; [lia | done | by apply is_target_true |].
    intros j w' Hj Hjn. lia.
  - apply is_target_false in Htarget.
    assert (i0 ≠ n) as Hne by (intros ->; congruence).
    destruct IH as (i & w & Hi & Hw & Hp & Hlater); [lia | |].
    { exists i0, w0. repeat split; [lia | done | done]. }
    exists i, w. repeat split; [lia | done | done |].
    intros j w' Hj Hjn Hw'. destruct (decide (j = n)) as [-> | Hjne].
    + congruence.
    + apply (Hlater j w'); [done | lia | done].
Qed.

(** X10. Whatever the list, [remove(func)] returns, and the list it leaves
    is the old one without at most one element: the wrappers that were
    not made from [func] are all there, in their order, and of the wrappers
    made from [func] there is one less, or none if there was none. *)
Theorem remove_takes_one_target_at_most σ this func l :
  live σ this l →
  ∃ l', remove this func σ = Returned this (update this l' σ) ∧
    l' `sublist_of` l ∧
    filter (λ w, is_target func w = false) l'
      = filter (λ w, is_target func w = false) l ∧
    length (filter (λ w, is_target func w = true) l')
      = length (filter (λ w, is_target func w = true) l) - 1.
Proof.
  intros H.
  destruct (decide (Exists (λ w, is_target func w = true) l)) as [Hex | Hno].
  - apply Exists_exists in Hex as (w0 & Hin & Ht0).
    apply list_elem_of_lookup_1 in Hin as [i0 Hi0].
    destruct (last_target func l (length l)) as (i & w & Hi & Hw & Hp & Hlater);
      [done | |].
    { exists i0, w0. repeat split; [by apply lookup_lt_Some with w0 | done |].
      by apply is_target_true. }
    exists (delete i l). split.
    { apply remove_match with w; [done | done | done |].
      intros j w' Hj Hw'. apply (Hlater j w'); [done | | done].
      by apply lookup_lt_Some with w'. }
    split; [apply sublist_delete |].
    apply is_target_true in Hp.
    rewrite delete_take_drop.
    pose proof (take_drop_middle l i w Hw) as Hsplit.
    set (l1 := take i l) in *. set (l2 := drop (S i) l) in *.
    clearbody l1 l2. rewrite <- Hsplit.
    rewrite !filter_app, !filter_cons, Hp. simpl.
    split; [done |]. rewrite !length_app. simpl. lia.
  - exists l. split.
    + rewrite update_live by done. apply remove_no_match with l; [done |].
      intros w Hw Hp. apply Hno, Exists_exists. exists w.
      split; [done | by apply is_target_true].
    + split; [done |]. split; [done |].
      assert (filter (λ w, is_target func w = true) l = []) as ->; [| done].
      clear H. induction l as [|w l IH]; [done |].
      rewrite filter_cons_False.
      * apply IH. intros Hex. apply Hno. by right.
      * intros Ht. apply Hno. by left.
Qed.

(** ** Callable objects: the temporaries *)

Lemma release_temporary σ this temporary l lt :
  objects σ !! temporary = None → this ≠ temporary →
  release temporary (update this l (update temporary lt σ)) = update this l σ.
Proof.
  intros Hnew Hne. rewrite update_comm by done. apply release_update.
  unfold update; simpl. by rewrite lookup_insert_ne.
Qed.

Lemma Delegate_callable_new σ (fn : callable_argument) static_assert :
  ∃ new, objects σ !! new = None ∧
    Delegate_callable fn static_assert σ
    = Returned new (update new [function_from_callable fn] σ).
Proof.
  destruct (allocate_fresh σ) as (new & Hnew & Halloc).
  exists new. split; [done |]. unfold Delegate_callable, Delegate_default.
  rewrite (bind_Returned _ _ _ _ _ Halloc).
  rewrite (bind_Returned _ _ _ _ _ (push_back_live _ _ _ _ (live_update _ _ _))).
  by rewrite update_update.
Qed.


Lemma assign_callable_live σ this l (fn : callable_argument) static_assert :
  live σ this l →
  assign_callable this fn static_assert σ
    = Returned this (update this [function_from_callable fn] σ).
Proof.
  intros H.
  destruct (Delegate_callable_new σ fn static_assert) as (tmp & Hnew & Hctor).
  pose proof (live_fresh _ _ _ _ H Hnew) as Hne.
  assert (live (update tmp [function_from_callable fn] σ) this l) as H1
    by by apply live_update_ne.
  assert (this ≠ tmp) as Hne' by by apply not_eq_sym.
  unfold assign_callable.
  rewrite (bind_Returned _ _ _ _ _ Hctor).
  rewrite (bind_Returned _ _ _ _ _
             (operator_assign_move_live _ this tmp l [function_from_callable fn] H1
                (live_update _ _ _) Hne')).
  rewrite (bind_Returned _ _ _ _ _ (destroy_live _ tmp [] (live_update _ _ _))).
  rewrite (update_comm _ this tmp) by done. rewrite update_update.
  apply f_equal, release_update.
  unfold update; simpl. by rewrite lookup_insert_ne.
Qed.

Lemma operator_plus_assign_rvalue_live σ this arg l l' :
  live σ this l → live σ arg l' → this ≠ arg →
  operator_plus_assign_rvalue this arg σ
    = Returned this (update arg [] (update this (l ++ l') σ)).
Proof.
  intros H H' Hne.
  destruct (Delegate_move_live σ arg l' H') as (func & Hnew & Hmove).
  pose proof (live_fresh _ _ _ _ H Hnew) as Hfunc.
  assert (this ≠ func) as Hfunc' by by apply not_eq_sym.
  assert (arg ≠ func) as Harg by (apply not_eq_sym; by apply (live_fresh _ _ _ _ H' Hnew)).
  unfold operator_plus_assign_rvalue.
  rewrite (bind_Returned _ _ _ _ _ Hmove).
  assert (live (update arg [] (update func l' σ)) this l) as H1
    by (apply live_update_ne; [done |]; apply live_update_ne; [by apply not_eq_sym | done]).
  assert (live (update arg [] (update func l' σ)) func l') as H2
    by (apply live_update_ne; [done |]; apply live_update).
  rewrite (bind_Returned _ _ _ _ _ (add_delegate_live _ this func l l' H1 H2 Hfunc')).
  rewrite (bind_Returned _ _ _ _ _
             (destroy_live _ func l'
                (live_update_ne _ _ _ _ _ Hfunc' H2))).
  rewrite (update_comm _ arg func) by done.
  rewrite release_temporary;
    [by rewrite (update_comm _ this arg) | | done].
  unfold update; simpl. by rewrite lookup_insert_ne.
Qed.


(** ** [operator+] as an operation on lists *)

(** X12. The sum of two delegates is null exactly when both are; and a
    null operand adds nothing: the sum then holds the list of the other
    operand. *)
Theorem operator_plus_and_null σ a b la lb :
  live σ a la → live σ b lb →
  ∃ result σ',
    operator_plus a b σ = Returned result σ' ∧
    (r ← operator_plus a b; is_null r) σ
      = Returned (bool_decide (la = [] ∧ lb = [])) σ' ∧
    (lb = [] → live σ' result la) ∧
    (la = [] → live σ' result lb).
Proof.
  intros Ha Hb.
  destruct (operator_plus_live σ a b la lb Ha Hb) as (result & Hnew & Hplus).
  exists result, (update result (la ++ lb) σ). split; [done |].
  rewrite (bind_Returned _ _ _ _ _ Hplus). split; [| split].
  - rewrite (is_null_live _ _ _ (live_update _ _ _)). do 2 f_equal.
    apply bool_decide_ext. split.
    + intros Happ. by apply app_eq_nil in Happ.
    + by intros [-> ->].
  - intros ->. rewrite app_nil_r. apply live_update.
  - intros ->. apply live_update.
Qed.

(** X13. [operator+] is associative on the invocation lists: [(a + b) + c]
    and [a + (b + c)] are delegates with the same list, the wrappers of
    [a], then those of [b], then those of [c]; the operands keep their
    lists. *)
Theorem operator_plus_is_associative σ a b c la lb lc :
  live σ a la → live σ b lb → live σ c lc →
  ∃ left σ1 right σ2,
    (ab ← operator_plus a b; operator_plus ab c) σ = Returned left σ1 ∧
    (bc ← operator_plus b c; operator_plus a bc) σ = Returned right σ2 ∧
    live σ1 left (la ++ lb ++ lc) ∧ live σ2 right (la ++ lb ++ lc) ∧
    live σ1 a la ∧ live σ1 b lb ∧ live σ1 c lc ∧
    live σ2 a la ∧ live σ2 b lb ∧ live σ2 c lc.
Proof.
  intros Ha Hb Hc.
  destruct (operator_plus_live σ a b la lb Ha Hb) as (ab & Hab & Hplus1).
  destruct (operator_plus_live σ b c lb lc Hb Hc) as (bc & Hbc & Hplus2).
  set (σab := update ab (la ++ lb) σ) in *. set (σbc := update bc (lb ++ lc) σ) in *.
  assert (live σab c lc) as Hc1.
  { apply live_update_ne; [by apply live_fresh with σ lc | done]. }
  assert (live σbc a la) as Ha2.
  { apply live_update_ne; [by apply live_fresh with σ la | done]. }
  destruct (operator_plus_live σab ab c _ lc (live_update _ _ _) Hc1)
    as (left & Hleft & Hplus3).
  destruct (operator_plus_live σbc a bc la _ Ha2 (live_update _ _ _))
    as (right & Hright & Hplus4).
  exists left, (update left ((la ++ lb) ++ lc) σab),
         right, (update right (la ++ lb ++ lc) σbc).
  rewrite (bind_Returned _ _ _ _ _ Hplus1), (bind_Returned _ _ _ _ _ Hplus2).
  split; [done |]. split; [done |].
  assert (∀ x lx, live σ x lx → live (update left ((la ++ lb) ++ lc) σab) x lx) as Hk1.
  { intros x lx Hx.
    assert (live σab x lx) as Hx1.
    { apply live_update_ne; [by apply live_fresh with σ lx | done]. }
    apply live_update_ne; [by apply live_fresh with σab lx | done]. }
  assert (∀ x lx, live σ x lx → live (update right (la ++ lb ++ lc) σbc) x lx) as Hk2.
  { intros x lx Hx.
    assert (live σbc x lx) as Hx1.
    { apply live_update_ne; [by apply live_fresh with σ lx | done]. }
    apply live_update_ne; [by apply live_fresh with σbc lx | done]. }
  split; [rewrite (app_assoc la lb lc); apply live_update |].
  split; [apply live_update |].
  repeat split; auto.
Qed.

(** ** A delegate that was moved from *)

(** X14. After a delegate was moved from, by the move constructor, it is
    null and [invoke] on it throws [DelegateInvocationException], while
    [invoke] on the new delegate is the ordered calls of the list that the
    source held. *)
Theorem moved_from_delegate_is_null σ src l params :
  live σ src l →
  ∃ new σ',
    Delegate_move src σ = Returned new σ' ∧
    is_null src σ' = Returned true σ' ∧
    invoke code src params σ'
      = Threw (DelegateInvocationException "Failed to invoke delegate") σ' ∧
    invoke code new params σ' = spec_invoke code l params σ'.
Proof.
  intros H. destruct (Delegate_move_live σ src l H) as (new & Hnew & Hmove).
  pose proof (live_fresh _ _ _ _ H Hnew) as Hne.
  exists new, (update src [] (update new l σ)). split; [done |].
  assert (live (update src [] (update new l σ)) src []) as Hsrc by apply live_update.
  assert (live (update src [] (update new l σ)) new l) as Hnew'.
  { apply live_update_ne; [by apply not_eq_sym | apply live_update]. }
  split; [by rewrite (is_null_live _ _ _ Hsrc) |].
  split; [by apply invoke_empty | by apply invoke_spec].
Qed.

(** ** The function added last decides the result *)

(** X15. When [invoke] returns after [add] of a function, the value
    returned is the value that this function returned, and the state
    outside the delegates is the state in which this function left it. *)
Theorem last_added_function_decides_the_result σ this l addr params r σ' :
  live σ this l →
  (d ← add this (Npos addr); invoke code d params) σ = Returned r σ' →
  ∃ s, code addr params s = Normal r (world σ') ∧
       live σ' this (l ++ [ptr_target addr]).
Proof.
  intros H Hrun.
  rewrite (bind_Returned _ _ _ _ _ (add_live _ _ _ _ H)) in Hrun. simpl in Hrun.
  set (σ1 := update this (l ++ [ptr_target addr]) σ) in *.
  assert (live σ1 this (l ++ [ptr_target addr])) as H1 by apply live_update.
  pose proof (invoke_outcome code σ1 this _ params H1) as Hout.
  pose proof (invoke_objects code σ1 this _ params H1) as Hobj.
  rewrite Hrun in Hout, Hobj.
  rewrite length_app, Nat.add_sub in Hout. simpl in Hout.
  rewrite list_lookup_middle in Hout by done.
  destruct Hout as (w & σ2 & [= <-] & _ & _ & Hcall).
  unfold call, run_target in Hcall. simpl in Hcall.
  destruct (code addr params (world σ2)) as [r' s'|e s'] eqn:Hcode; [| done].
  injection Hcall as -> <-. exists (world σ2). split; [done |].
  by apply live_objects with σ1.
Qed.

(** ** The older header: [invoke_void], [invoke_nonvoid] and the counters *)

(** X16. [invoke_void] of the older header, on fewer than 2^32 wrappers
    and with fuel above their number, calls every wrapper once, in
    order, and returns, or stops at the first wrapper that throws with the
    exception of that wrapper.  It does not look at whether the list is
    empty: on an empty list it returns without a call. *)
Theorem invoke_void_calls_all σ this ws params fuel :
  live σ this ws → (Z.of_nat (length ws) < 2 ^ 32)%Z → length ws < fuel →
  match invoke_void code fuel this params σ with
  | Some (Returned _ σ') =>
      objects σ' = objects σ ∧ calls σ' = calls σ ++ calls_of ws params
  | Some (Threw e σ') =>
      ∃ k w σ1, ws !! k = Some w ∧
        calls σ1 = calls σ ++ calls_of (take k ws) params ∧
        call code w params σ1 = Threw e σ'
  | Some Undefined | None => False
  end ∧
  (ws = [] → invoke_void code fuel this params σ = Some (Returned tt σ)).
Proof.
  intros H Hsize Hfuel.
  pose proof (call_loop_indexed_agrees code this ws params (λ size, size) (length ws)
                eq_refl (le_n _) Hsize (length ws) 0 fuel σ H eq_refl Hfuel) as Hloop.
  change (Z.of_nat 0) with 0%Z in Hloop. unfold invoke_void. rewrite Hloop.
  split; [| by intros ->].
  pose proof (invoke_loop_outcome code this ws params (length ws) 0 σ H (le_n _)) as Hout.
  rewrite drop_0, take_ge in Hout by done.
  destruct (invoke_loop code this params 0 (length ws) σ) as [[] σ'|e σ'|]; [done | | done].
  destruct Hout as (k & w & σ1 & _ & Hw & _ & Hc & Hcall).
  by exists k, w, σ1.
Qed.

(** X17. On an empty list, [invoke_nonvoid] of the older header computes
    the bound [size() - 1] as the largest [size_t] and reads
    [m_invokationList[0]] of an empty vector, which is undefined; [invoke]
    of that header never gets there: it throws
    [DelegateInvocationException] first, whatever the fuel and the return
    type. *)
Theorem invoke_nonvoid_needs_the_guard σ this params fuel void_value :
  live σ this [] →
  invoke_nonvoid code (S fuel) this params σ = Some Undefined ∧
  invoke_indexed code void_value fuel this params σ
    = Some (Threw (DelegateInvocationException "Failed to invoke delegate") σ).
Proof.
  intros H. split.
  - unfold invoke_nonvoid. simpl.
    unfold mbind at 1, MF_bind at 1.
    rewrite lift_bind, (vector_size_t_live _ _ _ H). simpl.
    unfold vector_index. rewrite lift_bind. simpl.
    unfold vector_at. by rewrite (bind_Returned _ _ _ _ _ (get_list_live _ _ _ H)).
  - unfold invoke_indexed.
    by rewrite lift_bind, (is_null_live _ _ _ H).
Qed.

(** With 2^32 elements or more, every value of the counter is below
    [size()], and every index it gives is inside the vector. *)
Lemma remove_loop_indexed_wraps σ this func l :
  live σ this l → (2 ^ 32 ≤ Z.of_nat (length l))%Z →
  (∀ w, w ∈ l → ¬ pointer_origin func w) →
  ∀ fuel i, (0 ≤ i < 2 ^ 32)%Z →
  remove_loop_indexed fuel this func i σ = None.
Proof.
  intros H Hsize Hno. induction fuel as [|fuel IH]; intros i Hi; [done |].
  simpl. rewrite lift_bind, (vector_size_t_live _ _ _ H).
  rewrite bool_decide_true by lia.
  set (index := uint32_t (size_t (Z.of_nat (length l) - i - 1))).
  assert (0 ≤ index < 2 ^ 32)%Z as Hindex by (apply Z.mod_pos_bound; lia).
  destruct (lookup_lt_is_Some_2 l (Z.to_nat index)) as [w Hw]; [lia |].
  unfold vector_index. rewrite lift_bind, (vector_at_live _ _ _ _ _ H Hw).
  assert (is_target func w = false) as ->.
  { apply is_target_false, Hno. by apply list_elem_of_lookup_2 with (Z.to_nat index). }
  apply IH. apply Z.mod_pos_bound. lia.
Qed.

(** X18. [remove] of the older header does not end on a list of 2^32
    wrappers or more that holds no wrapper made from [func]: the
    [uint32_t] counter wraps around before it reaches [size()], so no
    amount of fuel gives a result. *)
Theorem remove_indexed_never_ends σ this func l fuel :
  live σ this l → (2 ^ 32 ≤ Z.of_nat (length l))%Z →
  (∀ w, w ∈ l → ¬ pointer_origin func w) →
  remove_indexed fuel this func σ = None.
Proof.
  intros H Hsize Hno. unfold remove_indexed.
  rewrite lift_bind, (is_null_live _ _ _ H).
  rewrite bool_decide_false by (intros ->; simpl in Hsize; lia).
  unfold mbind, MF_bind.
  by rewrite (remove_loop_indexed_wraps σ this func l H Hsize Hno fuel 0).
Qed.

Lemma call_loop_indexed_wraps this ws params :
  (2 ^ 32 < Z.of_nat (length ws) < 2 ^ 64)%Z →
  (∀ w, w ∈ ws → returns_normally code w params) →
  ∀ fuel i σ, live σ this ws → (0 ≤ i < 2 ^ 32)%Z →
  call_loop_indexed code fuel this params (λ size, size_t (size - 1)) i σ = None.
Proof.
  intros Hsize Hnormal. induction fuel as [|fuel IH]; intros i σ H Hi; [done |].
  simpl. rewrite lift_bind, (vector_size_t_live _ _ _ H).
  assert (size_t (Z.of_nat (length ws) - 1) = Z.of_nat (length ws) - 1)%Z as ->.
  { unfold size_t. rewrite Z.mod_small; lia. }
  rewrite bool_decide_true by lia.
  destruct (lookup_lt_is_Some_2 ws (Z.to_nat i)) as [w Hw]; [lia |].
  unfold vector_index. rewrite lift_bind, (vector_at_live _ _ _ _ _ H Hw).
  rewrite lift_bind.
  destruct (Hnormal w (list_elem_of_lookup_2 _ _ _ Hw) σ) as (r & σ1 & Hcall).
  rewrite Hcall. apply call_Returned_inv in Hcall as [Ho _].
  apply IH; [by apply live_objects with σ | apply Z.mod_pos_bound; lia].
Qed.

(** X19. [invoke] of the older header, for a return type that is not
    [void], does not end on a list of more than 2^32 wrappers whose calls
    return: the [uint32_t] counter wraps around before it reaches
    [size() - 1], and the wrappers are called over and over. *)
Theorem invoke_indexed_never_ends σ this ws params fuel :
  live σ this ws → (2 ^ 32 < Z.of_nat (length ws) < 2 ^ 64)%Z →
  (∀ w, w ∈ ws → returns_normally code w params) →
  invoke_indexed code None fuel this params σ = None.
Proof.
  intros H Hsize Hnormal. unfold invoke_indexed.
  rewrite lift_bind, (is_null_live _ _ _ H).
  rewrite bool_decide_false by (intros ->; simpl in Hsize; lia).
  unfold invoke_nonvoid, mbind, MF_bind.
  by rewrite (call_loop_indexed_wraps this ws params Hsize Hnormal fuel 0 σ H).
Qed.

End Extra.
End DelegateExtra.

(* ===================================================================== *)
(** * More on the examples *)
(* ===================================================================== *)

Module ExamplesExtra.
Import DelegateH DelegateTheory DelegateExtra.

(** ** MemberFunctionsExample.cpp *)

Section MemberFunctions.
Import MemberFunctionsExample.

(** One call of [completeOperation]: the callable it picks, the state it
    leaves. *)
Lemma completeOperation_step (σ : state Args R W E) m_operation l a b :
  live σ m_operation l →
  completeOperation m_operation a b σ =
  Returned (if world σ then m_add a b else m_sub a b)
    (State (<[m_operation :=
                mkDelegate [obj_target (if world σ then bind_m_add else lambda_m_sub)]]>
              (objects σ))
       (negb (world σ))
       (calls σ ++ [(obj_target (if world σ then bind_m_add else lambda_m_sub), (a, b))])).
Proof.
  intros H. unfold completeOperation.
  rewrite (bind_Returned get_world _ σ (world σ) σ eq_refl).
  destruct (world σ) eqn:Hturn;
    rewrite (bind_Returned _ _ _ _ _ (assign_callable_live _ _ l _ _ H));
    rewrite (bind_Returned (put_world _) _ _ tt _ eq_refl);
    unfold operator_call;
    (erewrite invoke_single; [| apply lookup_insert_eq]); reflexivity.
Qed.

(** X20. [Foo::completeOperation] computes [m_add] when [turn] is set and
    [m_sub] when it is not, flips [turn], and leaves in [m_operation] the
    one callable it has just assigned, whatever the delegate held; so two
    calls in a row compute the one and then the other, and [turn] is what
    it was. *)
Theorem completeOperation_alternates (σ : state Args R W E) m_operation l a b c d :
  live σ m_operation l →
  (∃ σ', completeOperation m_operation a b σ
           = Returned (if world σ then m_add a b else m_sub a b) σ' ∧
         world σ' = negb (world σ) ∧
         live σ' m_operation
           [obj_target (if world σ then bind_m_add else lambda_m_sub)]) ∧
  (∃ σ', (first ← completeOperation m_operation a b;
          second ← completeOperation m_operation c d;
          mret (first, second)) σ
           = Returned (if world σ then (m_add a b, m_sub c d)
                       else (m_sub a b, m_add c d)) σ' ∧
         world σ' = world σ).
Proof.
  intros H. split.
  - eexists. split; [by apply completeOperation_step with l |].
    split; [done |]. apply lookup_insert_eq.
  - rewrite (bind_Returned _ _ _ _ _ (completeOperation_step σ m_operation l a b H)).
    erewrite bind_Returned;
      [| apply completeOperation_step with [obj_target (if world σ then bind_m_add else lambda_m_sub)];
         apply lookup_insert_eq].
    destruct (world σ); eexists; split; reflexivity.
Qed.

Lemma main_prints_12_and_minus_2 :
  ∃ σ', main start = Returned (12, -2)%Z σ'.
Proof. eexists. reflexivity. Qed.

Lemma completeOperation_alternates_witness :
  live (one_Foo true []) 1%positive [] ∧
  ∃ σ', (first ← completeOperation 1%positive 5 7;
         second ← completeOperation 1%positive 5 7;
         mret (first, second)) (one_Foo true [])
        = Returned (12, -2)%Z σ' ∧ world σ' = true.
Proof.
  split; [reflexivity |].
  destruct (completeOperation_alternates (one_Foo true []) 1%positive [] 5 7 5 7 eq_refl)
    as (_ & σ' & Hrun & Hturn).
  exists σ'. split; [exact Hrun | exact Hturn].
Defined.

End MemberFunctions.

(** ** GenericDelegatesExample.cpp *)

Section GenericDelegates.
Import GenericDelegatesExample.

Context {T P : Type} (mul : T → T → P).

(** X21. For every type [T], with [P] the type of a product [t * t],
    invoking [SomeObject<T>::printer] with [t] writes [t], a space, the
    product [t * t] and a newline after what was written before, in this
    order, and so does [member<T>] once [print_squared] was added to it;
    [member<T>] as initialised writes [t] and a space. *)
Theorem printer_writes_value_then_square
    (σ : state T unit (list (token T P)) Empty_set) (t : T) :
  (∃ σ', call_printer mul t σ = Returned tt σ' ∧
         world σ' = world σ ++ [out_value t; out_string " "; out_product (mul t t); endl]) ∧
  (∃ σ', extend_member_and_invoke mul t σ = Returned tt σ' ∧
         world σ' = world σ ++ [out_value t; out_string " "; out_product (mul t t); endl]) ∧
  (∃ σ', invoke_member mul t σ = Returned tt σ' ∧
         world σ' = world σ ++ [out_value t; out_string " "]).
Proof.
  split; [| split].
  - unfold call_printer, SomeObject, operator_call.
    destruct (Delegate_list_new σ
                [function_from_pointer (Npos print_address);
                 function_from_pointer (Npos print_squared_address)])
      as (new & _ & Hctor).
    rewrite (bind_Returned _ _ _ _ _ Hctor).
    rewrite (invoke_spec _ _ _ _ _ (live_update _ _ _)).
    eexists. split; [reflexivity |]. simpl. by rewrite <- app_assoc.
  - unfold extend_member_and_invoke, member, operator_plus_assign.
    destruct (Delegate_function_new σ (Npos print_address)) as (new & _ & Hctor).
    rewrite (bind_Returned _ _ _ _ _ Hctor).
    rewrite (bind_Returned _ _ _ _ _ (add_live _ _ _ _ (live_update _ _ _))).
    rewrite (invoke_spec _ _ _ _ _ (live_update _ _ _)).
    eexists. split; [reflexivity |]. simpl. by rewrite <- app_assoc.
  - unfold invoke_member, member.
    destruct (Delegate_function_new σ (Npos print_address)) as (new & _ & Hctor).
    rewrite (bind_Returned _ _ _ _ _ Hctor).
    rewrite (invoke_spec _ _ _ _ _ (live_update _ _ _)).
    eexists. split; reflexivity.
Qed.

End GenericDelegates.

(** ** The theorems above at the delegates of SimplestUsageExample.cpp *)

Section Witnesses.
Import Example ExampleTheory.

Lemma is_null_tells_whether_invoke_fails_witness :
  live (one_delegate sum_sub) 1%positive sum_sub ∧
  ∃ b, is_null 1%positive (one_delegate sum_sub) = Returned b (one_delegate sum_sub) ∧
    (b = true ↔ sum_sub = []) ∧
    (b = true ↔
     ∃ msg σ', invoke code 1%positive (5, 7)%Z (one_delegate sum_sub)
               = Threw (DelegateInvocationException msg) σ').
Proof.
  split; [reflexivity |].
  apply (is_null_tells_whether_invoke_fails code (one_delegate sum_sub) 1%positive
           sum_sub (5, 7)%Z).
  reflexivity.
Defined.

Lemma clear_and_add_decide_is_null_witness :
  live (one_delegate sum_sub) 1%positive sum_sub ∧
  (c ← clear 1%positive; is_null c) (one_delegate sum_sub)
    = Returned true (update 1%positive [] (one_delegate sum_sub)) ∧
  (d ← add 1%positive nullptr; is_null d) (one_delegate sum_sub)
    = Returned false
        (update 1%positive (sum_sub ++ [empty_function]) (one_delegate sum_sub)).
Proof.
  split; [reflexivity |].
  destruct (clear_and_add_decide_is_null (one_delegate sum_sub) 1%positive sum_sub
              nullptr eq_refl) as (Hclear & _ & Hadd).
  split; [exact Hclear | exact Hadd].
Defined.

Lemma invoke_with_empty_wrapper_throws_witness :
  live (one_delegate [ptr_target sum; empty_function; ptr_target multiply]) 1%positive
       [ptr_target sum; empty_function; ptr_target multiply] ∧
  ∃ e σ',
    invoke code 1%positive (5, 7)%Z
      (one_delegate [ptr_target sum; empty_function; ptr_target multiply])
      = Threw e σ' ∧
    ∀ msg, e ≠ DelegateInvocationException msg.
Proof.
  split; [reflexivity |].
  apply (invoke_with_empty_wrapper_throws code
           (one_delegate [ptr_target sum; empty_function; ptr_target multiply])
           1%positive [ptr_target sum; empty_function; ptr_target multiply] (5, 7)%Z).
  - reflexivity.
  - right. left.
Defined.

Lemma add_delegate_appends_witness :
  live (two_delegates sum_sub [ptr_target multiply]) 1%positive sum_sub ∧
  live (two_delegates sum_sub [ptr_target multiply]) 2%positive [ptr_target multiply] ∧
  add_delegate 1%positive 2%positive (two_delegates sum_sub [ptr_target multiply])
  = Returned 1%positive
      (update 1%positive (sum_sub ++ [ptr_target multiply])
         (two_delegates sum_sub [ptr_target multiply])).
Proof.
  split; [reflexivity |]. split; [reflexivity |].
  apply (add_delegate_appends (two_delegates sum_sub [ptr_target multiply])
           1%positive 2%positive sum_sub [ptr_target multiply]).
  - reflexivity.
  - reflexivity.
  - discriminate.
Defined.

Lemma Delegate_copy_is_independent_witness :
  live (one_delegate sum_sub) 1%positive sum_sub ∧
  ∃ new, objects (one_delegate sum_sub) !! new = None ∧
    Delegate_copy 1%positive (one_delegate sum_sub)
    = Returned new (update new sum_sub (one_delegate sum_sub)).
Proof.
  split; [reflexivity |].
  destruct (Delegate_copy_is_independent (one_delegate sum_sub) 1%positive sum_sub
              (Npos multiply) eq_refl) as (new & Hnew & Hcopy & _).
  exists new. split; [exact Hnew | exact Hcopy].
Defined.

Lemma operator_assign_copy_replaces_witness :
  live (two_delegates sum_sub [ptr_target multiply]) 1%positive sum_sub ∧
  live (two_delegates sum_sub [ptr_target multiply]) 2%positive [ptr_target multiply] ∧
  operator_assign_copy 1%positive 2%positive (two_delegates sum_sub [ptr_target multiply])
  = Returned 1%positive
      (update 1%positive [ptr_target multiply]
         (two_delegates sum_sub [ptr_target multiply])).
Proof.
  split; [reflexivity |]. split; [reflexivity |].
  apply (operator_assign_copy_replaces (two_delegates sum_sub [ptr_target multiply])
           1%positive 2%positive sum_sub [ptr_target multiply]).
  - reflexivity.
  - reflexivity.
Defined.

Lemma remove_takes_one_target_at_most_witness :
  live (one_delegate sum_sub_sum_multiplier) 1%positive sum_sub_sum_multiplier ∧
  ∃ l', remove 1%positive (Npos sum) (one_delegate sum_sub_sum_multiplier)
        = Returned 1%positive (update 1%positive l' (one_delegate sum_sub_sum_multiplier)) ∧
    l' `sublist_of` sum_sub_sum_multiplier ∧
    filter (λ w, is_target (Npos sum) w = false) l'
      = filter (λ w, is_target (Npos sum) w = false) sum_sub_sum_multiplier ∧
    length (filter (λ w, is_target (Npos sum) w = true) l')
      = length (filter (λ w, is_target (Npos sum) w = true) sum_sub_sum_multiplier) - 1.
Proof.
  split; [reflexivity |].
  apply (remove_takes_one_target_at_most (one_delegate sum_sub_sum_multiplier)
           1%positive (Npos sum) sum_sub_sum_multiplier).
  reflexivity.
Defined.

(** A closure without captures is callable and converts to a function
    pointer: the template constructor takes it, and the template
    [operator+=] is not compiled for it.  [multiplier] and [std::function]
    are callable and do not convert. *)
Lemma captureless_closure_converts :
  IsCallable.is_callable_v captureless_closure_type = true ∧
  IsCallable.converts_to_function_pointer captureless_closure_type = true ∧
  IsCallable.is_callable_v multiplier_type = true ∧
  IsCallable.converts_to_function_pointer multiplier_type = false ∧
  IsCallable.is_callable_v std_function_class = true ∧
  IsCallable.converts_to_function_pointer std_function_class = false.
Proof. repeat split. Qed.

(** [operation += std::function<int(int, int)>(multiply)] and then
    [operation -= multiply], and [operation += multiplier()] and then
    [operation -= multiply], on [{sum, sub}]. *)
Lemma plus_assign_std_function_then_minus_assign :
  (d ← operator_plus_assign_callable 1%positive (function_value (ptr_target multiply))
         eq_refl eq_refl;
   operator_minus_assign d (Npos multiply)) (one_delegate sum_sub)
  = Returned 1%positive (one_delegate sum_sub).
Proof. reflexivity. Qed.

Lemma plus_assign_multiplier_then_minus_assign :
  (d ← operator_plus_assign_callable 1%positive
         (function_object multiplier_type multiplier) eq_refl eq_refl;
   operator_minus_assign d (Npos multiply)) (one_delegate sum_sub)
  = Returned 1%positive (one_delegate (sum_sub ++ [obj_target multiplier])).
Proof. reflexivity. Qed.

(** [operation += std::move(other)], with [operation] holding [{sum, sub}]
    and [other] holding [{multiply}]. *)
Lemma plus_assign_rvalue_example :
  operator_plus_assign_rvalue 1%positive 2%positive
    (two_delegates sum_sub [ptr_target multiply])
  = Returned 1%positive (two_delegates (sum_sub ++ [ptr_target multiply]) []).
Proof. reflexivity. Qed.


Lemma operator_plus_and_null_witness :
  live (two_delegates [] sum_sub) 1%positive [] ∧
  live (two_delegates [] sum_sub) 2%positive sum_sub ∧
  ∃ result σ',
    operator_plus 1%positive 2%positive (two_delegates [] sum_sub) = Returned result σ' ∧
    (r ← operator_plus 1%positive 2%positive; is_null r) (two_delegates [] sum_sub)
      = Returned false σ' ∧
    live σ' result sum_sub.
Proof.
  split; [reflexivity |]. split; [reflexivity |].
  destruct (operator_plus_and_null (two_delegates [] sum_sub) 1%positive 2%positive
              [] sum_sub eq_refl eq_refl) as (result & σ' & Hplus & Hnull & _ & Hright).
  exists result, σ'. split; [exact Hplus |]. split; [exact Hnull |].
  apply Hright. reflexivity.
Defined.

Lemma operator_plus_is_associative_witness :
  live (two_delegates sum_sub [ptr_target multiply]) 1%positive sum_sub ∧
  live (two_delegates sum_sub [ptr_target multiply]) 2%positive [ptr_target multiply] ∧
  ∃ left σ1 right σ2,
    (ab ← operator_plus 1%positive 2%positive; operator_plus ab 1%positive)
      (two_delegates sum_sub [ptr_target multiply]) = Returned left σ1 ∧
    (bc ← operator_plus 2%positive 1%positive; operator_plus 1%positive bc)
      (two_delegates sum_sub [ptr_target multiply]) = Returned right σ2 ∧
    live σ1 left (sum_sub ++ [ptr_target multiply] ++ sum_sub) ∧
    live σ2 right (sum_sub ++ [ptr_target multiply] ++ sum_sub).
Proof.
  split; [reflexivity |]. split; [reflexivity |].
  destruct (operator_plus_is_associative (two_delegates sum_sub [ptr_target multiply])
              1%positive 2%positive 1%positive sum_sub [ptr_target multiply] sum_sub
              eq_refl eq_refl eq_refl)
    as (left & σ1 & right & σ2 & H1 & H2 & Hl & Hr & _).
  exists left, σ1, right, σ2. repeat split; assumption.
Defined.

Lemma moved_from_delegate_is_null_witness :
  live (one_delegate sum_sub) 1%positive sum_sub ∧
  ∃ new σ',
    Delegate_move 1%positive (one_delegate sum_sub) = Returned new σ' ∧
    is_null 1%positive σ' = Returned true σ' ∧
    invoke code 1%positive (5, 7)%Z σ'
      = Threw (DelegateInvocationException "Failed to invoke delegate"%string) σ'.
Proof.
  split; [reflexivity |].
  destruct (moved_from_delegate_is_null code (one_delegate sum_sub) 1%positive sum_sub
              (5, 7)%Z eq_refl) as (new & σ' & Hmove & Hnull & Hinvoke & _).
  exists new, σ'. repeat split; assumption.
Defined.

Lemma last_added_function_decides_the_result_witness :
  live (one_delegate sum_sub) 1%positive sum_sub ∧
  ∃ s, code multiply (5, 7)%Z s = Normal 35%Z tt.
Proof.
  split; [reflexivity |].
  destruct (last_added_function_decides_the_result code (one_delegate sum_sub)
              1%positive sum_sub multiply (5, 7)%Z 35%Z
              (State (objects (update 1%positive (sum_sub ++ [ptr_target multiply])
                                 (one_delegate sum_sub)))
                 tt (calls_of (sum_sub ++ [ptr_target multiply]) (5, 7)%Z))
              eq_refl eq_refl) as (s & Hs & _).
  exists s. exact Hs.
Defined.

Lemma invoke_void_calls_all_witness :
  live (one_delegate sum_sub) 1%positive sum_sub ∧
  match invoke_void code 3 1%positive (5, 7)%Z (one_delegate sum_sub) with
  | Some (Returned _ σ') =>
      objects σ' = objects (one_delegate sum_sub) ∧
      calls σ' = calls (one_delegate sum_sub) ++ calls_of sum_sub (5, 7)%Z
  | Some (Threw e σ') =>
      ∃ k w σ1, sum_sub !! k = Some w ∧
        calls σ1 = calls (one_delegate sum_sub) ++ calls_of (take k sum_sub) (5, 7)%Z ∧
        call code w (5, 7)%Z σ1 = Threw e σ'
  | Some Undefined | None => False
  end.
Proof.
  split; [reflexivity |].
  refine (proj1 (invoke_void_calls_all code (one_delegate sum_sub) 1%positive sum_sub
                   (5, 7)%Z 3 eq_refl _ _)).
  - reflexivity.
  - simpl. lia.
Defined.

Lemma invoke_nonvoid_needs_the_guard_witness :
  live (one_delegate []) 1%positive [] ∧
  invoke_nonvoid code 1 1%positive (5, 7)%Z (one_delegate []) = Some Undefined ∧
  invoke_indexed code None 0 1%positive (5, 7)%Z (one_delegate [])
    = Some (Threw (DelegateInvocationException "Failed to invoke delegate"%string)
              (one_delegate [])).
Proof.
  split; [reflexivity |].
  apply (invoke_nonvoid_needs_the_guard code (one_delegate []) 1%positive (5, 7)%Z 0 None).
  reflexivity.
Defined.

Lemma remove_indexed_never_ends_witness :
  live (one_delegate (replicate (Z.to_nat (2 ^ 32)) empty_function)) 1%positive
       (replicate (Z.to_nat (2 ^ 32)) empty_function) ∧
  remove_indexed 3 1%positive (Npos sum)
    (one_delegate (replicate (Z.to_nat (2 ^ 32)) empty_function)) = None.
Proof.
  split; [apply lookup_singleton_eq |].
  apply (remove_indexed_never_ends
           (one_delegate (replicate (Z.to_nat (2 ^ 32)) empty_function))
           1%positive (Npos sum) (replicate (Z.to_nat (2 ^ 32)) empty_function) 3).
  - apply lookup_singleton_eq.
  - rewrite length_replicate, Z2Nat.id; lia.
  - intros w Hw. apply elem_of_replicate in Hw as [-> _]. discriminate.
Defined.

Lemma invoke_indexed_never_ends_witness :
  live (one_delegate (replicate (Z.to_nat (2 ^ 32 + 1)) (ptr_target sum))) 1%positive
       (replicate (Z.to_nat (2 ^ 32 + 1)) (ptr_target sum)) ∧
  invoke_indexed code None 3 1%positive (5, 7)%Z
    (one_delegate (replicate (Z.to_nat (2 ^ 32 + 1)) (ptr_target sum))) = None.
Proof.
  split; [apply lookup_singleton_eq |].
  apply (invoke_indexed_never_ends code
           (one_delegate (replicate (Z.to_nat (2 ^ 32 + 1)) (ptr_target sum)))
           1%positive (replicate (Z.to_nat (2 ^ 32 + 1)) (ptr_target sum)) (5, 7)%Z 3).
  - apply lookup_singleton_eq.
  - rewrite length_replicate, Z2Nat.id; lia.
  - intros w Hw. apply elem_of_replicate in Hw as [-> _].
    apply free_functions_return. left.
Defined.

End Witnesses.

End ExamplesExtra.
